(** * A fan-out / fan-in pipeline of goroutines: model and verification

    The program under study ([precode.go]) starts one [Generator], [NumOut]
    [Worker]s, [NumOut] collector goroutines, one closer and one sink, and
    then checks that what the generator counted equals what the sink
    counted.

    The development embeds the program as an interleaving transition
    system.  Every goroutine is a small state machine whose states are the
    program points at which it can be preempted; one [step] of the system
    is one atomic action of one goroutine (or the firing of the context's
    timer).  Channels, the mutex, the wait groups and the atomic counters
    are fields of the shared [State].  All [int64] arithmetic wraps.
    Wall-clock time is not modelled: the deadline may pass before any
    step, and a sleeping worker wakes up at some later step.

    The properties are proved for every number [N] of lanes; the program
    has [N = NumOut]. *)

From Stdlib Require Import ZArith Lia String Ascii DecimalString.
From stdpp Require Import base list strings.

Local Open Scope Z_scope.

(** ** 64-bit signed integers *)

(** Go's [int64] arithmetic is two's complement: results are reduced
    into [-2^63, 2^63). *)
Definition wrap64 (z : Z) : Z := (z + 2 ^ 63) mod 2 ^ 64 - 2 ^ 63.

Definition int64_range (z : Z) : Prop := - 2 ^ 63 <= z < 2 ^ 63.

Fixpoint sumZ (l : list Z) : Z :=
  match l with
  | [] => 0
  | x :: r => x + sumZ r
  end.

(** ** Formatting ([fmt] and [log]) *)

Local Open Scope string_scope.

Definition nl : string := String (ascii_of_nat 10) EmptyString.

(** [%d] and the default format of an [int64]. *)
Definition dec (z : Z) : string := NilZero.string_of_int (Z.to_int z).

Fixpoint join_sp (l : list string) : string :=
  match l with
  | [] => ""
  | [x] => x
  | x :: r => x +:+ " " +:+ join_sp r
  end.

(** The default format of a slice of integers: [[a b c]]. *)
Definition show_slice (l : list Z) : string :=
  "[" +:+ join_sp (map dec l) +:+ "]".

(** [fmt.Println]: operands separated by spaces, newline appended. *)
Definition println (args : list string) : string := join_sp args +:+ nl.

(** Line 114. *)
Definition line_count (src snk : Z) : string :=
  println ["Количество чисел"; dec src; dec snk].

(** Line 115. *)
Definition line_sum (src snk : Z) : string :=
  println ["Сумма чисел"; dec src; dec snk].

(** Line 116. *)
Definition line_lanes (hits : list Z) : string :=
  println ["Разбивка по каналам"; show_slice hits].

(** The text formatted by [log.Fatalf] at lines 120, 123 and 129 (the
    logger's timestamp prefix is left out). *)
Definition msg_sum (src snk : Z) : string :=
  "Ошибка: суммы чисел не равны: " +:+ dec src +:+ " != " +:+ dec snk +:+ nl.

Definition msg_count (src snk : Z) : string :=
  "Ошибка: количество чисел не равно: " +:+ dec src +:+ " != " +:+ dec snk +:+ nl.

Definition msg_lanes : string :=
  "Ошибка: разделение чисел по каналам неверное" +:+ nl.

Arguments dec : simpl never.
Arguments line_count : simpl never.
Arguments line_sum : simpl never.
Arguments line_lanes : simpl never.
Arguments msg_sum : simpl never.
Arguments msg_count : simpl never.

Definition is_digit (c : ascii) : bool :=
  let n := nat_of_ascii c in ((48 <=? n) && (n <=? 57))%nat.

Fixpoint has_digit (m : string) : bool :=
  match m with
  | EmptyString => false
  | String c r => is_digit c || has_digit r
  end.

Fixpoint is_prefix (p m : string) : bool :=
  match p, m with
  | EmptyString, _ => true
  | String a p', String b m' => Ascii.eqb a b && is_prefix p' m'
  | String _ _, EmptyString => false
  end.

(** [mentions m p]: the text [p] occurs in the message [m]. *)
Fixpoint mentions (m p : string) : bool :=
  is_prefix p m ||
  match m with
  | EmptyString => false
  | String _ r => mentions r p
  end.

Fixpoint count_nl (m : string) : nat :=
  match m with
  | EmptyString => 0%nat
  | String c r => ((if Ascii.eqb c (ascii_of_nat 10) then 1 else 0) + count_nl r)%nat
  end.

Local Close Scope string_scope.

(** ** Program points of the goroutines *)

(** [Generator] (lines 18-31).  [n] is the local variable. *)
Inductive GState : Type :=
| GNone                 (* not started yet *)
| GSelect (n : Z)       (* line 22: at the select *)
| GSend (n : Z)         (* line 26: blocked on [ch <- n] *)
| GObsCount (n : Z)     (* line 27: in [fn(n)], before [inputCount.Add(1)] *)
| GObsSum (n : Z)       (* line 27: in [fn(n)], before [inputSum.Add(n)] *)
| GClose                (* line 24: returning, deferred [close(ch)] pending *)
| GDone.

(** [Worker] (lines 34-41). *)
Inductive WState : Type :=
| WNone
| WRecv                 (* line 37: at [range in] *)
| WSend (v : Z)         (* line 38: blocked on [out <- v] *)
| WSleep                (* line 39 *)
| WClose                (* loop left, deferred [close(out)] pending *)
| WDone.

(** The collector goroutine of one lane (lines 80-88). *)
Inductive CState : Type :=
| CNone
| CRecv                 (* line 82: at [range ch] *)
| CLock (v : Z)         (* line 83 *)
| CInc (v : Z)          (* line 84, lock held *)
| CUnlock (v : Z)       (* line 85 *)
| CSend (v : Z)         (* line 86: [chOut <- v] *)
| CWgDone               (* loop left, deferred [wg.Done()] pending *)
| CDone.

(** The closer goroutine (lines 91-96). *)
Inductive ClState : Type :=
| ClNone
| ClWait                (* line 93 *)
| ClClose               (* line 95 *)
| ClDone.

(** The sink goroutine (lines 105-111). *)
Inductive SState : Type :=
| SNone
| SRecv                 (* line 107 *)
| SCount (v : Z)        (* line 108 *)
| SSum (v : Z)          (* line 109 *)
| SWgDone               (* deferred [wg1.Done()] pending *)
| SDone.

(** [main] (lines 43-131). *)
Inductive MState : Type :=
| MGoGenerator          (* line 54 *)
| MGoWorker (i : nat)   (* lines 63-68 *)
| MWgAdd (i : nat)      (* lines 78-79 *)
| MGoCollector (i : nat) (* line 80 *)
| MGoCloser             (* line 91 *)
| MGoSink               (* lines 104-105 *)
| MWait                 (* line 112 *)
| MPrintCount           (* line 114 *)
| MPrintSum             (* line 115 *)
| MPrintLanes           (* line 116 *)
| MCheckSum             (* line 119 *)
| MCheckCount           (* line 122 *)
| MSubtract (j : nat)   (* lines 125-127 *)
| MCheckZero            (* line 128 *)
| MReturn.              (* line 131, deferred [cancel()] pending *)

(** How the process ended. *)
Inductive Outcome : Type :=
| Returned              (* [main] returned *)
| Fatal (msg : string)  (* [log.Fatalf] *)
| Panicked.             (* a runtime panic *)

Definition exit_status (o : Outcome) : Z :=
  match o with
  | Returned => 0
  | Fatal _ => 1
  | Panicked => 2
  end.

(** One lane: [Worker] number [i], its channel [outs[i]] and the collector
    reading from it. *)
Record Lane : Type := mkLane {
  wk : WState;
  out_closed : bool;
  col : CState
}.

Record State : Type := mkState {
  main : MState;
  ctx_done : bool;        (* [ctx.Done()] is closed *)
  gen : GState;
  chIn_closed : bool;
  inputSum : Z;
  inputCount : Z;
  lanes : list Lane;
  amounts : list Z;
  mu : bool;              (* the mutex is held *)
  wg : Z;
  chOut : list Z;         (* buffer of [chOut], oldest first *)
  chOut_closed : bool;
  closer : ClState;
  sink : SState;
  count : Z;
  sum : Z;
  wg1 : Z;
  stdout : list string;   (* one entry per [Println] *)
  exit : option Outcome
}.

Definition set_wk (w : WState) (ln : Lane) : Lane :=
  mkLane w (out_closed ln) (col ln).
Definition set_out_closed (b : bool) (ln : Lane) : Lane :=
  mkLane (wk ln) b (col ln).
Definition set_col (c : CState) (ln : Lane) : Lane :=
  mkLane (wk ln) (out_closed ln) c.

Definition set_main (x : MState) (s : State) : State :=
  mkState x (ctx_done s) (gen s) (chIn_closed s) (inputSum s) (inputCount s)
    (lanes s) (amounts s) (mu s) (wg s) (chOut s) (chOut_closed s) (closer s)
    (sink s) (count s) (sum s) (wg1 s) (stdout s) (exit s).
Definition set_ctx_done (x : bool) (s : State) : State :=
  mkState (main s) x (gen s) (chIn_closed s) (inputSum s) (inputCount s)
    (lanes s) (amounts s) (mu s) (wg s) (chOut s) (chOut_closed s) (closer s)
    (sink s) (count s) (sum s) (wg1 s) (stdout s) (exit s).
Definition set_gen (x : GState) (s : State) : State :=
  mkState (main s) (ctx_done s) x (chIn_closed s) (inputSum s) (inputCount s)
    (lanes s) (amounts s) (mu s) (wg s) (chOut s) (chOut_closed s) (closer s)
    (sink s) (count s) (sum s) (wg1 s) (stdout s) (exit s).
Definition set_chIn_closed (x : bool) (s : State) : State :=
  mkState (main s) (ctx_done s) (gen s) x (inputSum s) (inputCount s)
    (lanes s) (amounts s) (mu s) (wg s) (chOut s) (chOut_closed s) (closer s)
    (sink s) (count s) (sum s) (wg1 s) (stdout s) (exit s).
Definition set_inputSum (x : Z) (s : State) : State :=
  mkState (main s) (ctx_done s) (gen s) (chIn_closed s) x (inputCount s)
    (lanes s) (amounts s) (mu s) (wg s) (chOut s) (chOut_closed s) (closer s)
    (sink s) (count s) (sum s) (wg1 s) (stdout s) (exit s).
Definition set_inputCount (x : Z) (s : State) : State :=
  mkState (main s) (ctx_done s) (gen s) (chIn_closed s) (inputSum s) x
    (lanes s) (amounts s) (mu s) (wg s) (chOut s) (chOut_closed s) (closer s)
    (sink s) (count s) (sum s) (wg1 s) (stdout s) (exit s).
Definition set_lanes (x : list Lane) (s : State) : State :=
  mkState (main s) (ctx_done s) (gen s) (chIn_closed s) (inputSum s) (inputCount s)
    x (amounts s) (mu s) (wg s) (chOut s) (chOut_closed s) (closer s)
    (sink s) (count s) (sum s) (wg1 s) (stdout s) (exit s).
Definition set_amounts (x : list Z) (s : State) : State :=
  mkState (main s) (ctx_done s) (gen s) (chIn_closed s) (inputSum s) (inputCount s)
    (lanes s) x (mu s) (wg s) (chOut s) (chOut_closed s) (closer s)
    (sink s) (count s) (sum s) (wg1 s) (stdout s) (exit s).
Definition set_mu (x : bool) (s : State) : State :=
  mkState (main s) (ctx_done s) (gen s) (chIn_closed s) (inputSum s) (inputCount s)
    (lanes s) (amounts s) x (wg s) (chOut s) (chOut_closed s) (closer s)
    (sink s) (count s) (sum s) (wg1 s) (stdout s) (exit s).
Definition set_wg (x : Z) (s : State) : State :=
  mkState (main s) (ctx_done s) (gen s) (chIn_closed s) (inputSum s) (inputCount s)
    (lanes s) (amounts s) (mu s) x (chOut s) (chOut_closed s) (closer s)
    (sink s) (count s) (sum s) (wg1 s) (stdout s) (exit s).
Definition set_chOut (x : list Z) (s : State) : State :=
  mkState (main s) (ctx_done s) (gen s) (chIn_closed s) (inputSum s) (inputCount s)
    (lanes s) (amounts s) (mu s) (wg s) x (chOut_closed s) (closer s)
    (sink s) (count s) (sum s) (wg1 s) (stdout s) (exit s).
Definition set_chOut_closed (x : bool) (s : State) : State :=
  mkState (main s) (ctx_done s) (gen s) (chIn_closed s) (inputSum s) (inputCount s)
    (lanes s) (amounts s) (mu s) (wg s) (chOut s) x (closer s)
    (sink s) (count s) (sum s) (wg1 s) (stdout s) (exit s).
Definition set_closer (x : ClState) (s : State) : State :=
  mkState (main s) (ctx_done s) (gen s) (chIn_closed s) (inputSum s) (inputCount s)
    (lanes s) (amounts s) (mu s) (wg s) (chOut s) (chOut_closed s) x
    (sink s) (count s) (sum s) (wg1 s) (stdout s) (exit s).
Definition set_sink (x : SState) (s : State) : State :=
  mkState (main s) (ctx_done s) (gen s) (chIn_closed s) (inputSum s) (inputCount s)
    (lanes s) (amounts s) (mu s) (wg s) (chOut s) (chOut_closed s) (closer s)
    x (count s) (sum s) (wg1 s) (stdout s) (exit s).
Definition set_count (x : Z) (s : State) : State :=
  mkState (main s) (ctx_done s) (gen s) (chIn_closed s) (inputSum s) (inputCount s)
    (lanes s) (amounts s) (mu s) (wg s) (chOut s) (chOut_closed s) (closer s)
    (sink s) x (sum s) (wg1 s) (stdout s) (exit s).
Definition set_sum (x : Z) (s : State) : State :=
  mkState (main s) (ctx_done s) (gen s) (chIn_closed s) (inputSum s) (inputCount s)
    (lanes s) (amounts s) (mu s) (wg s) (chOut s) (chOut_closed s) (closer s)
    (sink s) (count s) x (wg1 s) (stdout s) (exit s).
Definition set_wg1 (x : Z) (s : State) : State :=
  mkState (main s) (ctx_done s) (gen s) (chIn_closed s) (inputSum s) (inputCount s)
    (lanes s) (amounts s) (mu s) (wg s) (chOut s) (chOut_closed s) (closer s)
    (sink s) (count s) (sum s) x (stdout s) (exit s).
Definition set_stdout (x : list string) (s : State) : State :=
  mkState (main s) (ctx_done s) (gen s) (chIn_closed s) (inputSum s) (inputCount s)
    (lanes s) (amounts s) (mu s) (wg s) (chOut s) (chOut_closed s) (closer s)
    (sink s) (count s) (sum s) (wg1 s) x (exit s).
Definition set_exit (x : option Outcome) (s : State) : State :=
  mkState (main s) (ctx_done s) (gen s) (chIn_closed s) (inputSum s) (inputCount s)
    (lanes s) (amounts s) (mu s) (wg s) (chOut s) (chOut_closed s) (closer s)
    (sink s) (count s) (sum s) (wg1 s) (stdout s) x.

Definition set_lane (i : nat) (ln : Lane) (s : State) : State :=
  set_lanes (<[i := ln]> (lanes s)) s.

(** ** Steps *)

(** Who moves.  [LTimeout] is the timer of [context.WithTimeout]. *)
Inductive Label : Type :=
| LTimeout
| LMain
| LGen
| LWorker (i : nat)
| LCollector (i : nat)
| LCloser
| LSink.

(** What a step did, as far as the properties below need to know. *)
Inductive Event : Type :=
| EvTau
| EvTimeout                       (* the deadline passed *)
| EvGenSeenDone                   (* the select took [<-ctx.Done()] *)
| EvHandoff (i : nat) (v : Z)     (* [ch <- v] completed; Worker [i] received [v] *)
| EvObserve (v : Z)               (* [fn(v)] was called *)
| EvCloseIn                       (* [close(ch)] in [Generator] *)
| EvForward (i : nat) (v : Z)     (* [out <- v] of Worker [i] completed *)
| EvSleep (i : nat) (d : Z)       (* Worker [i] slept [d] nanoseconds *)
| EvWClose (i : nat)              (* [close(out)] in Worker [i] *)
| EvCloseOut                      (* [close(chOut)] *)
| EvPanic.

(** [1 * time.Millisecond], in nanoseconds. *)
Definition worker_delay : Z := 1 * 1000000.

Definition panic (s : State) : option (Event * State) :=
  Some (EvPanic, set_exit (Some Panicked) s).

Definition step_gen (s : State) : option (Event * State) :=
  match gen s with
  | GSelect n =>
      if ctx_done s then Some (EvGenSeenDone, set_gen GClose s)
      else Some (EvTau, set_gen (GSend n) s)
  | GSend n => if chIn_closed s then panic s else None
  | GObsCount n =>
      Some (EvObserve n,
            set_gen (GObsSum n) (set_inputCount (wrap64 (inputCount s + 1)) s))
  | GObsSum n =>
      Some (EvTau,
            set_gen (GSelect (wrap64 (n + 1)))
              (set_inputSum (wrap64 (inputSum s + n)) s))
  | GClose =>
      if chIn_closed s then panic s
      else Some (EvCloseIn, set_gen GDone (set_chIn_closed true s))
  | GNone | GDone => None
  end.

(** A receive on the unbuffered [chIn] completes together with the
    generator's pending send. *)
Definition step_worker (i : nat) (s : State) : option (Event * State) :=
  match lanes s !! i with
  | None => None
  | Some ln =>
      match wk ln with
      | WRecv =>
          if chIn_closed s then Some (EvTau, set_lane i (set_wk WClose ln) s)
          else match gen s with
               | GSend n =>
                   Some (EvHandoff i n,
                         set_gen (GObsCount n) (set_lane i (set_wk (WSend n) ln) s))
               | _ => None
               end
      | WSend v => if out_closed ln then panic s else None
      | WSleep => Some (EvSleep i worker_delay, set_lane i (set_wk WRecv ln) s)
      | WClose =>
          if out_closed ln then panic s
          else Some (EvWClose i,
                     set_lane i (set_wk WDone (set_out_closed true ln)) s)
      | WNone | WDone => None
      end
  end.

(** [chOut] is buffered with capacity [N]. *)
Definition step_collector (N i : nat) (s : State) : option (Event * State) :=
  match lanes s !! i with
  | None => None
  | Some ln =>
      match col ln with
      | CRecv =>
          if out_closed ln then Some (EvTau, set_lane i (set_col CWgDone ln) s)
          else match wk ln with
               | WSend v =>
                   Some (EvForward i v,
                         set_lane i (set_col (CLock v) (set_wk WSleep ln)) s)
               | _ => None
               end
      | CLock v =>
          if mu s then None
          else Some (EvTau, set_mu true (set_lane i (set_col (CInc v) ln) s))
      | CInc v =>
          match amounts s !! i with
          | Some h =>
              Some (EvTau,
                    set_amounts (<[i := wrap64 (h + 1)]> (amounts s))
                      (set_lane i (set_col (CUnlock v) ln) s))
          | None => panic s
          end
      | CUnlock v =>
          if mu s then Some (EvTau, set_mu false (set_lane i (set_col (CSend v) ln) s))
          else panic s
      | CSend v =>
          if chOut_closed s then panic s
          else if (length (chOut s) <? N)%nat
               then Some (EvTau,
                          set_chOut (chOut s ++ [v]) (set_lane i (set_col CRecv ln) s))
               else None
      | CWgDone =>
          if wg s <=? 0 then panic s
          else Some (EvTau, set_wg (wg s - 1) (set_lane i (set_col CDone ln) s))
      | CNone | CDone => None
      end
  end.

Definition step_closer (s : State) : option (Event * State) :=
  match closer s with
  | ClWait => if wg s =? 0 then Some (EvTau, set_closer ClClose s) else None
  | ClClose =>
      if chOut_closed s then panic s
      else Some (EvCloseOut, set_closer ClDone (set_chOut_closed true s))
  | ClNone | ClDone => None
  end.

Definition step_sink (s : State) : option (Event * State) :=
  match sink s with
  | SRecv =>
      match chOut s with
      | v :: q => Some (EvTau, set_sink (SCount v) (set_chOut q s))
      | [] => if chOut_closed s then Some (EvTau, set_sink SWgDone s) else None
      end
  | SCount v => Some (EvTau, set_sink (SSum v) (set_count (wrap64 (count s + 1)) s))
  | SSum v => Some (EvTau, set_sink SRecv (set_sum (wrap64 (sum s + v)) s))
  | SWgDone =>
      if wg1 s <=? 0 then panic s
      else Some (EvTau, set_sink SDone (set_wg1 (wg1 s - 1) s))
  | SNone | SDone => None
  end.

Definition fatal (m : string) (s : State) : option (Event * State) :=
  Some (EvTau, set_exit (Some (Fatal m)) s).

(** [main].  Starting the goroutines takes one step each.  A [Println]
    that loads two counters is one step: by then no other goroutine can
    change them (lemma [joined_frame] below). *)
Definition step_main (N : nat) (s : State) : option (Event * State) :=
  match main s with
  | MGoGenerator => Some (EvTau, set_main (MGoWorker 0) (set_gen (GSelect 1) s))
  | MGoWorker i =>
      if (i <? N)%nat
      then Some (EvTau,
                 set_main (MGoWorker (S i))
                   (set_lanes (alter (set_wk WRecv) i (lanes s)) s))
      else Some (EvTau, set_main (MWgAdd 0) s)
  | MWgAdd i =>
      if (i <? N)%nat
      then Some (EvTau, set_main (MGoCollector i) (set_wg (wg s + 1) s))
      else Some (EvTau, set_main MGoCloser s)
  | MGoCollector i =>
      Some (EvTau,
            set_main (MWgAdd (S i))
              (set_lanes (alter (set_col CRecv) i (lanes s)) s))
  | MGoCloser => Some (EvTau, set_main MGoSink (set_closer ClWait s))
  | MGoSink =>
      Some (EvTau, set_main MWait (set_sink SRecv (set_wg1 (wg1 s + 1) s)))
  | MWait => if wg1 s =? 0 then Some (EvTau, set_main MPrintCount s) else None
  | MPrintCount =>
      Some (EvTau,
            set_main MPrintSum
              (set_stdout (stdout s ++ [line_count (inputCount s) (count s)]) s))
  | MPrintSum =>
      Some (EvTau,
            set_main MPrintLanes
              (set_stdout (stdout s ++ [line_sum (inputSum s) (sum s)]) s))
  | MPrintLanes =>
      Some (EvTau,
            set_main MCheckSum
              (set_stdout (stdout s ++ [line_lanes (amounts s)]) s))
  | MCheckSum =>
      if inputSum s =? sum s then Some (EvTau, set_main MCheckCount s)
      else fatal (msg_sum (inputSum s) (sum s)) s
  | MCheckCount =>
      if inputCount s =? count s then Some (EvTau, set_main (MSubtract 0) s)
      else fatal (msg_count (inputCount s) (count s)) s
  | MSubtract j =>
      match amounts s !! j with
      | Some v =>
          Some (EvTau,
                set_main (MSubtract (S j))
                  (set_inputCount (wrap64 (inputCount s + wrap64 (- v))) s))
      | None => Some (EvTau, set_main MCheckZero s)
      end
  | MCheckZero =>
      if inputCount s =? 0 then Some (EvTau, set_main MReturn s)
      else fatal msg_lanes s
  | MReturn => Some (EvTau, set_exit (Some Returned) (set_ctx_done true s))
  end.

(** One step of the whole program.  Nothing moves once the process has
    ended. *)
Definition step (N : nat) (l : Label) (s : State) : option (Event * State) :=
  match exit s with
  | Some _ => None
  | None =>
      match l with
      | LTimeout => if ctx_done s then None else Some (EvTimeout, set_ctx_done true s)
      | LMain => step_main N s
      | LGen => step_gen s
      | LWorker i => step_worker i s
      | LCollector i => step_collector N i s
      | LCloser => step_closer s
      | LSink => step_sink s
      end
  end.

(** The state in which [main] starts, for a pool of [N] lanes. *)
Definition init (N : nat) : State :=
  mkState MGoGenerator false GNone false 0 0
    (replicate N (mkLane WNone false CNone)) (replicate N 0)
    false 0 [] false ClNone SNone 0 0 0 [] None.

(** The constant of line 59. *)
Definition NumOut : nat := 20.

Fixpoint run_from (N : nat) (tr : list Label) (evs : list Event) (s : State)
  : option (list Event * State) :=
  match tr with
  | [] => Some (evs, s)
  | l :: tr' =>
      match step N l s with
      | Some (e, s') => run_from N tr' (evs ++ [e]) s'
      | None => None
      end
  end.

(** [run N tr]: the events and the state after the schedule [tr]. *)
Definition run (N : nat) (tr : list Label) : option (list Event * State) :=
  run_from N tr [] (init N).

(** ** Schedulers, to build concrete runs *)

Fixpoint first_enabled (N : nat) (ls : list Label) (s : State)
  : option (Label * State) :=
  match ls with
  | [] => None
  | l :: r =>
      match step N l s with
      | Some (_, s') => Some (l, s')
      | None => first_enabled N r s
      end
  end.

(** Run the first enabled goroutine of [ls] until [stop] holds, at most
    [fuel] times. *)
Fixpoint schedule (N : nat) (stop : State -> bool) (ls : list Label)
    (fuel : nat) (s : State) : list Label * State :=
  match fuel with
  | O => ([], s)
  | S k =>
      if stop s then ([], s)
      else match first_enabled N ls s with
           | Some (l, s') =>
               let (tr, s'') := schedule N stop ls k s' in (l :: tr, s'')
           | None => ([], s)
           end
  end.

Definition goroutines (N : nat) : list Label :=
  [LSink; LCloser] ++ map LCollector (seq 0 N) ++ map LWorker (seq 0 N)
    ++ [LGen; LMain].


(** ** Measures over the lanes *)

Definition total {A : Type} (f : A -> Z) (l : list A) : Z := sumZ (map f l).

Definition b2z (b : bool) : Z := if b then 1 else 0.

(** Values the generator has sent but not yet counted, resp. summed. *)
Definition gen_uncounted (g : GState) : Z :=
  match g with GObsCount _ => 1 | _ => 0 end.
Definition gen_unsummed (g : GState) : Z :=
  match g with GObsCount n | GObsSum n => n | _ => 0 end.

(** Values the sink has received but not yet counted, resp. summed. *)
Definition sink_uncounted (k : SState) : Z :=
  match k with SCount _ => 1 | _ => 0 end.
Definition sink_unsummed (k : SState) : Z :=
  match k with SCount v | SSum v => v | _ => 0 end.

(** Values in flight inside one lane: how many, and their sum. *)
Definition lane_items (ln : Lane) : Z :=
  match wk ln with WSend _ => 1 | _ => 0 end
  + match col ln with CLock _ | CInc _ | CUnlock _ | CSend _ => 1 | _ => 0 end.
Definition lane_values (ln : Lane) : Z :=
  match wk ln with WSend v => v | _ => 0 end
  + match col ln with CLock v | CInc v | CUnlock v | CSend v => v | _ => 0 end.

(** Values in a lane that [amounts] has not recorded yet. *)
Definition lane_unhit (ln : Lane) : Z :=
  match wk ln with WSend _ => 1 | _ => 0 end
  + match col ln with CLock _ | CInc _ => 1 | _ => 0 end.

(** The collector runs and has not called [wg.Done()]. *)
Definition lane_live (ln : Lane) : Z :=
  match col ln with CNone | CDone => 0 | _ => 1 end.

(** The collector holds the mutex. *)
Definition lane_crit (ln : Lane) : Z :=
  match col ln with CInc _ | CUnlock _ => 1 | _ => 0 end.

(** ** Where [main] is *)

Definition spawned_workers (N : nat) (m : MState) : nat :=
  match m with
  | MGoGenerator => 0
  | MGoWorker i => i
  | _ => N
  end.

Definition spawned_collectors (N : nat) (m : MState) : nat :=
  match m with
  | MGoGenerator | MGoWorker _ => 0
  | MWgAdd i | MGoCollector i => i
  | _ => N
  end.

(** [wg.Add(1)] done for a collector that is not started yet. *)
Definition wg_pending (m : MState) : Z :=
  match m with MGoCollector _ => 1 | _ => 0 end.

Definition after_generator (m : MState) : bool :=
  match m with MGoGenerator => false | _ => true end.

Definition after_closer (m : MState) : bool :=
  match m with
  | MGoGenerator | MGoWorker _ | MWgAdd _ | MGoCollector _ | MGoCloser => false
  | _ => true
  end.

Definition after_sink (m : MState) : bool :=
  match m with
  | MGoGenerator | MGoWorker _ | MWgAdd _ | MGoCollector _ | MGoCloser
  | MGoSink => false
  | _ => true
  end.

(** [wg1.Wait()] has returned: the sink goroutine is joined. *)
Definition joined (m : MState) : bool :=
  match m with
  | MPrintCount | MPrintSum | MPrintLanes | MCheckSum | MCheckCount
  | MSubtract _ | MCheckZero | MReturn => true
  | _ => false
  end.

(** [main] has not yet started the loop of lines 125-127. *)
Definition before_subtract (m : MState) : bool :=
  match m with
  | MSubtract _ | MCheckZero | MReturn => false
  | _ => true
  end.

(** Lines of the report on standard output so far. *)
Definition printed (m : MState) : nat :=
  match m with
  | MPrintSum => 1
  | MPrintLanes => 2
  | MCheckSum | MCheckCount | MSubtract _ | MCheckZero | MReturn => 3
  | _ => 0
  end.

Definition main_ok (N : nat) (m : MState) : Prop :=
  match m with
  | MGoWorker i | MWgAdd i => (i <= N)%nat
  | MGoCollector i => (i < N)%nat
  | _ => True
  end.

(** ** Classifying program points *)

Definition g_started (g : GState) : bool :=
  match g with GNone => false | _ => true end.
Definition g_done (g : GState) : bool :=
  match g with GDone => true | _ => false end.
Definition g_exited (g : GState) : bool :=
  match g with GClose | GDone => true | _ => false end.
Definition g_busy (g : GState) : bool :=
  match g with GObsCount _ | GObsSum _ => true | _ => false end.
Definition g_sending (g : GState) : bool :=
  match g with GSend _ => true | _ => false end.

Definition w_done (w : WState) : bool :=
  match w with WDone => true | _ => false end.
Definition w_exited (w : WState) : bool :=
  match w with WClose | WDone => true | _ => false end.

Definition c_exited (c : CState) : bool :=
  match c with CWgDone | CDone => true | _ => false end.

Definition cl_started (c : ClState) : bool :=
  match c with ClNone => false | _ => true end.
Definition cl_waited (c : ClState) : bool :=
  match c with ClClose | ClDone => true | _ => false end.
Definition cl_done (c : ClState) : bool :=
  match c with ClDone => true | _ => false end.

Definition s_started (k : SState) : bool :=
  match k with SNone => false | _ => true end.
Definition s_exited (k : SState) : bool :=
  match k with SWgDone | SDone => true | _ => false end.
Definition s_active (k : SState) : Z :=
  match k with SNone | SDone => 0 | _ => 1 end.

(** ** The control invariant *)

(** What holds of lane [i], given whether [chIn] is closed ([cin]), how
    many workers and collectors [main] has started ([spw], [spc]) and
    whether [wg.Wait()] has returned in the closer ([cw]). *)
Definition lane_ok (cin : bool) (spw spc : nat) (cw : bool) (i : nat)
    (ln : Lane) : Prop :=
  out_closed ln = w_done (wk ln)
  /\ (w_exited (wk ln) = true -> cin = true)
  /\ (c_exited (col ln) = true -> out_closed ln = true)
  /\ ((spw <= i)%nat -> wk ln = WNone)
  /\ (col ln = CNone <-> (spc <= i)%nat)
  /\ (cw = true -> col ln = CDone).

Record Safe (N : nat) (s : State) : Prop := mkSafe {
  safe_lanes_len : length (lanes s) = N;
  safe_amounts_len : length (amounts s) = N;
  safe_main : main_ok N (main s);
  safe_gen_started : g_started (gen s) = after_generator (main s);
  safe_gen : chIn_closed s = g_done (gen s);
  safe_idle : g_busy (gen s) = true -> (0 < N)%nat;
  safe_lane : forall i ln, lanes s !! i = Some ln ->
    lane_ok (chIn_closed s) (spawned_workers N (main s))
      (spawned_collectors N (main s)) (cl_waited (closer s)) i ln;
  safe_mu : total lane_crit (lanes s) = b2z (mu s);
  safe_wg : wg s = wg_pending (main s) + total lane_live (lanes s);
  safe_closer_started : cl_started (closer s) = after_closer (main s);
  safe_chOut : chOut_closed s = cl_done (closer s);
  safe_sink_started : s_started (sink s) = after_sink (main s);
  safe_sink_exit : s_exited (sink s) = true ->
    chOut_closed s = true /\ chOut s = [];
  safe_wg1 : wg1 s = s_active (sink s);
  safe_joined : joined (main s) = true -> sink s = SDone;
  safe_exit : exit s <> Some Panicked
}.

(** ** Conservation *)

(** While [main] has not started subtracting, what the generator has sent
    equals what the sink has received plus what is in flight; the same
    holds of the sums, and of the hits recorded in [amounts].  All
    equations are modulo [2^64], as the counters wrap.  From line 125 on
    [inputCount] holds what remains to be subtracted. *)
Definition subtract_ok (m : MState) (hits : list Z) (ic : Z) : Prop :=
  match m with
  | MSubtract j => wrap64 (ic - sumZ (drop j hits)) = 0
  | MCheckZero | MReturn => ic = 0
  | _ => True
  end.

Record Conserved (s : State) : Prop := mkConserved {
  cons_range_inputCount : int64_range (inputCount s);
  cons_range_inputSum : int64_range (inputSum s);
  cons_range_count : int64_range (count s);
  cons_range_sum : int64_range (sum s);
  cons_sum :
    wrap64 (inputSum s + gen_unsummed (gen s)
            - (sum s + sink_unsummed (sink s) + sumZ (chOut s)
               + total lane_values (lanes s))) = 0;
  cons_count : before_subtract (main s) = true ->
    wrap64 (inputCount s + gen_uncounted (gen s)
            - (count s + sink_uncounted (sink s) + Z.of_nat (length (chOut s))
               + total lane_items (lanes s))) = 0;
  cons_hits : before_subtract (main s) = true ->
    wrap64 (inputCount s + gen_uncounted (gen s)
            - (sumZ (amounts s) + total lane_unhit (lanes s))) = 0;
  cons_subtract : subtract_ok (main s) (amounts s) (inputCount s);
  cons_exit : forall m, exit s <> Some (Fatal m)
}.

(** Every goroutine but [main] has finished (for a pool without lanes the
    generator may still stand before its first send). *)
Record Quiet (s : State) : Prop := mkQuiet {
  quiet_gen : g_busy (gen s) = false;
  quiet_lanes : forall i ln, lanes s !! i = Some ln ->
    wk ln = WDone /\ out_closed ln = true /\ col ln = CDone;
  quiet_closer : closer s = ClDone;
  quiet_chOut : chOut s = [] /\ chOut_closed s = true;
  quiet_sink : sink s = SDone
}.

(** What [main] reads and writes from line 114 on. *)
Definition report_view (s : State) :=
  (inputSum s, inputCount s, amounts s, count s, sum s, stdout s, main s, exit s).

(** ** Reading the events of a run *)

(** Values the generator has handed to some worker, in order. *)
Definition sent (evs : list Event) : list Z :=
  omap (fun e => match e with EvHandoff _ v => Some v | _ => None end) evs.

(** Values the observer [fn] was called with, in order. *)
Definition observed (evs : list Event) : list Z :=
  omap (fun e => match e with EvObserve v => Some v | _ => None end) evs.

(** Values Worker [i] received from [chIn]. *)
Definition received (i : nat) (evs : list Event) : list Z :=
  omap (fun e => match e with
                 | EvHandoff j v => if (j =? i)%nat then Some v else None
                 | _ => None
                 end) evs.

(** Values Worker [i] passed on to [outs[i]]. *)
Definition forwarded (i : nat) (evs : list Event) : list Z :=
  omap (fun e => match e with
                 | EvForward j v => if (j =? i)%nat then Some v else None
                 | _ => None
                 end) evs.

(** The pauses of Worker [i], with their durations. *)
Definition sleeps (i : nat) (evs : list Event) : list Z :=
  omap (fun e => match e with
                 | EvSleep j d => if (j =? i)%nat then Some d else None
                 | _ => None
                 end) evs.

Fixpoint count_ev (p : Event -> bool) (evs : list Event) : nat :=
  match evs with
  | [] => 0
  | e :: r => ((if p e then 1 else 0) + count_ev p r)%nat
  end.

Definition is_close_in (e : Event) : bool :=
  match e with EvCloseIn => true | _ => false end.
Definition is_close_out (e : Event) : bool :=
  match e with EvCloseOut => true | _ => false end.
Definition is_wclose (i : nat) (e : Event) : bool :=
  match e with EvWClose j => (j =? i)%nat | _ => false end.

Definition b2n (b : bool) : nat := if b then 1 else 0.

(** The [k]-th value of the generator, counting from one: the variable
    [n] starts at [1] and [n++] wraps. *)
Definition nth_item (k : nat) : Z := wrap64 (Z.of_nat k).

Definition items (m : nat) : list Z := map nth_item (seq 1 m).

(** What the events say about the generator. *)
Definition gen_trace_ok (evs : list Event) (g : GState) : Prop :=
  let m := length (sent evs) in
  match g with
  | GNone => sent evs = [] /\ observed evs = []
  | GSelect n | GSend n => n = nth_item (S m) /\ observed evs = sent evs
  | GObsCount n => n = nth_item m /\ sent evs = observed evs ++ [n]
  | GObsSum n => n = nth_item m /\ observed evs = sent evs
  | GClose | GDone => observed evs = sent evs
  end.

(** The part of [fn(n)] that has not reached [inputSum] yet. *)
Definition gen_sum_pending (g : GState) : Z :=
  match g with GObsSum n => n | _ => 0 end.

(** What the events say about Worker [i]. *)
Definition worker_trace_ok (i : nat) (evs : list Event) (ln : Lane) : Prop :=
  count_ev (is_wclose i) evs = b2n (out_closed ln)
  /\ Forall (fun d => d = worker_delay) (sleeps i evs)
  /\ match wk ln with
     | WNone =>
         received i evs = [] /\ forwarded i evs = [] /\ sleeps i evs = []
     | WSend v =>
         received i evs = forwarded i evs ++ [v]
         /\ length (sleeps i evs) = length (forwarded i evs)
     | WSleep =>
         received i evs = forwarded i evs
         /\ S (length (sleeps i evs)) = length (forwarded i evs)
     | WRecv | WClose | WDone =>
         received i evs = forwarded i evs
         /\ length (sleeps i evs) = length (forwarded i evs)
     end.

Record Traced (evs : list Event) (s : State) : Prop := mkTraced {
  tr_sent : sent evs = items (length (sent evs));
  tr_gen : gen_trace_ok evs (gen s);
  tr_count : before_subtract (main s) = true ->
    inputCount s = wrap64 (Z.of_nat (length (observed evs)));
  tr_sum :
    wrap64 (inputSum s + gen_sum_pending (gen s) - sumZ (observed evs)) = 0;
  tr_close_in : count_ev is_close_in evs = b2n (chIn_closed s);
  tr_seen : EvGenSeenDone ∈ evs <-> g_exited (gen s) = true;
  tr_seen_ctx : g_exited (gen s) = true -> ctx_done s = true;
  tr_timeout : EvTimeout ∈ evs -> ctx_done s = true;
  tr_worker : forall i ln, lanes s !! i = Some ln -> worker_trace_ok i evs ln;
  tr_close_out : count_ev is_close_out evs = b2n (chOut_closed s)
}.

(** ** The report on standard output *)

Definition report (s : State) : list string :=
  [line_count (count s) (count s); line_sum (sum s) (sum s);
   line_lanes (amounts s)].

Definition Reported (s : State) : Prop :=
  stdout s = take (printed (main s)) (report s).

(** ** Bounds that hold while nothing has overflowed *)

Record Bounded (k : Z) (s : State) : Prop := mkBounded {
  bnd_hits : forall i h, amounts s !! i = Some h -> 0 <= h;
  bnd_total : sumZ (amounts s) <= k
}.

(** ** [main] alone, from line 114 on *)

(** Let [main] take up to [fuel] steps. *)
Fixpoint main_run (N fuel : nat) (s : State) : State :=
  match fuel with
  | O => s
  | S k =>
      match step N LMain s with
      | Some (_, s') => main_run N k s'
      | None => s
      end
  end.

(** From line 119: two checks, the loop over [amounts], one check, return. *)
Definition verify (N : nat) (s : State) : State :=
  main_run N (length (amounts s) + 5) s.

(** From line 114: the three [Println], then [verify]. *)
Definition report_and_verify (N : nat) (s : State) : State :=
  main_run N (length (amounts s) + 8) s.

(** The value of [inputCount] after the loop of lines 125-127 has run
    over [hits]. *)
Definition subtract_all (ic : Z) (hits : list Z) : Z :=
  fold_left (fun a v => wrap64 (a + wrap64 (- v))) hits ic.

(** What the checks of [main] leave untouched. *)
Definition same_totals (s s' : State) : Prop :=
  stdout s' = stdout s /\ count s' = count s /\ sum s' = sum s
  /\ amounts s' = amounts s /\ inputSum s' = inputSum s.

(** Once the sink is joined its totals are those of what the generator
    sent, and [amounts] adds up to the same count. *)
Definition Settled (evs : list Event) (s : State) : Prop :=
  count s = wrap64 (Z.of_nat (length (sent evs)))
  /\ sum s = wrap64 (sumZ (sent evs))
  /\ wrap64 (count s - sumZ (amounts s)) = 0.

(** ** A concrete run: two lanes, five values *)

Definition at_select (n : Z) (s : State) : bool :=
  match gen s with GSelect k => k =? n | _ => false end.

(** Until the generator stands at the select with [n = 6]. *)
Definition demo_produce : list Label * State :=
  Eval vm_compute in schedule 2 (at_select 6) (goroutines 2) 1000 (init 2).

(** The deadline passes; the pipeline drains; the sink is joined. *)
Definition demo_drain : list Label :=
  Eval vm_compute in
    fst demo_produce ++ LTimeout ::
    match step 2 LTimeout (snd demo_produce) with
    | Some (_, s) => fst (schedule 2 (fun s => joined (main s)) (goroutines 2) 1000 s)
    | None => []
    end.

(** The three [Println]. *)
Definition demo_report : list Label := demo_drain ++ [LMain; LMain; LMain].

(** To the end of [main]. *)
Definition demo_full : list Label := demo_report ++ replicate 7 LMain.

Definition outcome_of (r : option (list Event * State)) : list Event * State :=
  match r with Some x => x | None => ([], init 0) end.

Definition demo_drained : list Event * State :=
  Eval vm_compute in outcome_of (run 2 demo_drain).
Definition demo_reported : list Event * State :=
  Eval vm_compute in outcome_of (run 2 demo_report).
Definition demo_ended : list Event * State :=
  Eval vm_compute in outcome_of (run 2 demo_full).

(** A state in which the totals agree and [amounts] does not add up. *)
Definition partition_violation : State :=
  mkState MCheckSum true GDone true 1 1 [mkLane WDone true CDone] [0]
    false 0 [] true ClDone SDone 1 1 0
    [line_count 1 1; line_sum 1 1; line_lanes [0]] None.

(** ** Progress and termination *)

(** Goroutine [l] can take a step. *)
Definition can_step (N : nat) (l : Label) (s : State) : bool :=
  match step N l s with Some _ => true | None => false end.

(** A worker that has left [WNone] was started by [main]. *)
Definition Started (N : nat) (s : State) : Prop :=
  forall i ln, lanes s !! i = Some ln -> wk ln = WNone ->
    (spawned_workers N (main s) <= i)%nat.

(** How many steps a goroutine still needs once the context is
    cancelled, counting for every value it holds the steps that value
    costs further down the pipeline. *)
Definition g_rank (g : GState) : Z :=
  match g with
  | GDone => 0
  | GClose => 1
  | GNone | GSelect _ => 2
  | GObsSum _ => 3
  | GObsCount _ => 4
  | GSend _ => 14
  end.

Definition w_rank (w : WState) : Z :=
  match w with
  | WDone => 0
  | WClose => 1
  | WNone | WRecv => 2
  | WSleep => 3
  | WSend _ => 11
  end.

Definition c_rank (c : CState) : Z :=
  match c with
  | CDone => 0
  | CWgDone => 1
  | CNone | CRecv => 2
  | CSend _ => 6
  | CUnlock _ => 7
  | CInc _ => 8
  | CLock _ => 9
  end.

Definition lane_rank (ln : Lane) : Z := w_rank (wk ln) + c_rank (col ln).

Definition cl_rank (c : ClState) : Z :=
  match c with
  | ClDone => 0
  | ClClose => 1
  | ClNone | ClWait => 2
  end.

Definition s_rank (k : SState) : Z :=
  match k with
  | SDone => 0
  | SWgDone => 1
  | SNone | SRecv => 2
  | SSum _ => 3
  | SCount _ => 4
  end.

(** [main], for [N] lanes. *)
Definition m_rank (N : nat) (m : MState) : Z :=
  match m with
  | MReturn => 0
  | MCheckZero => 1
  | MSubtract j => 2 + Z.of_nat (N - j)
  | MCheckCount => 3 + Z.of_nat N
  | MCheckSum => 4 + Z.of_nat N
  | MPrintLanes => 5 + Z.of_nat N
  | MPrintSum => 6 + Z.of_nat N
  | MPrintCount => 7 + Z.of_nat N
  | MWait => 8 + Z.of_nat N
  | MGoSink => 9 + Z.of_nat N
  | MGoCloser => 10 + Z.of_nat N
  | MGoCollector i => 10 + Z.of_nat N + 2 * Z.of_nat (N - i)
  | MWgAdd i => 11 + Z.of_nat N + 2 * Z.of_nat (N - i)
  | MGoWorker i => 12 + 3 * Z.of_nat N + Z.of_nat (N - i)
  | MGoGenerator => 13 + 4 * Z.of_nat N
  end.

(** An upper bound on the number of steps the program can still take
    once the context is cancelled. *)
Definition rank (N : nat) (s : State) : Z :=
  match exit s with Some _ => 0 | None => 1 end
  + m_rank N (main s) + g_rank (gen s) + total lane_rank (lanes s)
  + 3 * Z.of_nat (length (chOut s)) + cl_rank (closer s) + s_rank (sink s).

(** ** Per-lane accounting *)

(** A value the collector has taken and not yet recorded in [amounts]. *)
Definition lane_unrecorded (ln : Lane) : Z :=
  match col ln with CLock _ | CInc _ => 1 | _ => 0 end.

(** [amounts[i]] counts what Worker [i] has passed on. *)
Definition Hits (evs : list Event) (s : State) : Prop :=
  forall i ln h, lanes s !! i = Some ln -> amounts s !! i = Some h ->
    h = wrap64 (Z.of_nat (length (forwarded i evs)) - lane_unrecorded ln).

(** The collector of this lane is between [mu.Lock()] and [mu.Unlock()]. *)
Definition in_critical (ln : Lane) : bool :=
  match col ln with CInc _ | CUnlock _ => true | _ => false end.

(** ** A run in which the deadline passes at once *)

Definition demo_empty : list Label :=
  Eval vm_compute in
    LTimeout ::
    match step 2 LTimeout (init 2) with
    | Some (_, s) =>
        fst (schedule 2 (fun s => match exit s with Some _ => true | None => false end)
               (goroutines 2) 1000 s)
    | None => []
    end.

Definition demo_emptied : list Event * State :=
  Eval vm_compute in outcome_of (run 2 demo_empty).

(** The demo run up to the moment the deadline passes, and what follows. *)
Definition demo_before_deadline : list Label :=
  Eval vm_compute in take 44 demo_full.
Definition demo_after_deadline : list Label :=
  Eval vm_compute in drop 44 demo_full.
Definition demo_at_deadline : list Event * State :=
  Eval vm_compute in outcome_of (run 2 demo_before_deadline).

(** The demo run at a moment when collector 0 holds the mutex. *)
Definition demo_locking : list Label := Eval vm_compute in take 17 demo_full.
Definition demo_locked : list Event * State :=
  Eval vm_compute in outcome_of (run 2 demo_locking).

(** Totals at line 114 that pass the first two checks and fail the
    third: [amounts] adds up to 5 while [inputCount] is 7. *)
Definition print_violation : State :=
  mkState MPrintCount true GDone true 28 7
    [mkLane WDone true CDone; mkLane WDone true CDone] [3; 2]
    false 0 [] true ClDone SDone 7 28 0 [] None.

(** * Proofs *)

(** ** Arithmetic of [wrap64] *)

Ltac wrap_lia :=
  unfold wrap64, int64_range in *; Z.to_euclidean_division_equations; lia.

Lemma wrap64_range z : int64_range (wrap64 z).
Proof. wrap_lia. Qed.

Lemma wrap64_id z : int64_range z -> wrap64 z = z.
Proof. wrap_lia. Qed.

Lemma wrap64_idem z : wrap64 (wrap64 z) = wrap64 z.
Proof. wrap_lia. Qed.

Lemma wrap64_zero_eq a b :
  int64_range a -> int64_range b -> wrap64 (a - b) = 0 -> a = b.
Proof. wrap_lia. Qed.

(** ** Sums over lists *)

Lemma sumZ_app l1 l2 : sumZ (l1 ++ l2) = sumZ l1 + sumZ l2.
Proof. induction l1 as [|x l1 IH]; simpl; lia. Qed.

Lemma sumZ_insert (l : list Z) i x y :
  l !! i = Some x -> sumZ (<[i := y]> l) = sumZ l - x + y.
Proof.
  revert i. induction l as [|a l IH]; intros [|i] H; simplify_eq/=; try lia.
  rewrite (IH i) by done. lia.
Qed.

Lemma sumZ_drop (l : list Z) j x :
  l !! j = Some x -> sumZ (drop j l) = x + sumZ (drop (S j) l).
Proof.
  revert j. induction l as [|a l IH]; intros [|j] H; simplify_eq/=; try lia.
  - by rewrite drop_0.
  - by apply IH.
Qed.

Lemma sumZ_nonneg (l : list Z) :
  (forall i x, l !! i = Some x -> 0 <= x) -> 0 <= sumZ l.
Proof.
  induction l as [|a l IH]; intros H; simpl; [lia|].
  pose proof (H 0%nat a eq_refl). 
  assert (0 <= sumZ l) by (apply IH; intros i x Hi; apply (H (S i) x Hi)). lia.
Qed.

Lemma sumZ_lookup_le (l : list Z) i x :
  (forall i x, l !! i = Some x -> 0 <= x) -> l !! i = Some x -> x <= sumZ l.
Proof.
  revert i. induction l as [|a l IH]; intros [|i] Hnn H; simplify_eq/=.
  - assert (0 <= sumZ l) by (apply sumZ_nonneg; intros j y Hj; apply (Hnn (S j) y Hj)).
    lia.
  - pose proof (Hnn 0%nat a eq_refl).
    assert (x <= sumZ l) by (apply (IH i); [intros j y Hj; apply (Hnn (S j) y Hj)|done]).
    lia.
Qed.

Lemma sumZ_replicate_0 n : sumZ (replicate n 0) = 0.
Proof. induction n; simpl; lia. Qed.

Section Total.
Context {A : Type} (f : A -> Z).

Lemma total_nil : total f [] = 0.
Proof. reflexivity. Qed.

Lemma total_insert (l : list A) i x y :
  l !! i = Some x -> total f (<[i := y]> l) = total f l - f x + f y.
Proof.
  intros H. unfold total. rewrite list_fmap_insert.
  apply sumZ_insert. by rewrite list_lookup_fmap, H.
Qed.

Lemma total_alter (g : A -> A) (l : list A) i x :
  l !! i = Some x -> total f (alter g i l) = total f l - f x + f (g x).
Proof.
  revert i. unfold total.
  induction l as [|a l IH]; intros [|i] H; simplify_eq/=; try lia.
  rewrite (IH i) by done. lia.
Qed.

Lemma total_replicate n x : f x = 0 -> total f (replicate n x) = 0.
Proof. intros H. unfold total. induction n; simpl; lia. Qed.

Hypothesis f_nonneg : forall x, 0 <= f x.

Lemma total_nonneg l : 0 <= total f l.
Proof. unfold total. induction l as [|a l IH]; simpl; [lia|]. pose proof (f_nonneg a). lia. Qed.

Lemma total_lookup_le l i x : l !! i = Some x -> f x <= total f l.
Proof.
  revert i. unfold total.
  induction l as [|a l IH]; intros [|i] H; simplify_eq/=.
  - pose proof (total_nonneg l). unfold total in *. lia.
  - pose proof (f_nonneg a). pose proof (IH i H). lia.
Qed.

Lemma total_zero_lookup l i x : total f l = 0 -> l !! i = Some x -> f x = 0.
Proof.
  intros Hz H. pose proof (total_lookup_le l i x H). pose proof (f_nonneg x). lia.
Qed.

End Total.

Lemma lane_live_nonneg ln : 0 <= lane_live ln.
Proof. unfold lane_live. destruct (col ln); lia. Qed.

Lemma lane_crit_nonneg ln : 0 <= lane_crit ln.
Proof. unfold lane_crit. destruct (col ln); lia. Qed.

Lemma lane_items_nonneg ln : 0 <= lane_items ln.
Proof. unfold lane_items. destruct (wk ln), (col ln); lia. Qed.

Lemma lane_unhit_nonneg ln : 0 <= lane_unhit ln.
Proof. unfold lane_unhit. destruct (wk ln), (col ln); lia. Qed.

(** ** Runs *)

Lemma run_from_app N tr1 tr2 evs s :
  run_from N (tr1 ++ tr2) evs s =
  match run_from N tr1 evs s with
  | Some (evs', s') => run_from N tr2 evs' s'
  | None => None
  end.
Proof.
  revert evs s. induction tr1 as [|l tr1 IH]; intros evs s; simpl; [done|].
  destruct (step N l s) as [[e s']|]; [apply IH|done].
Qed.

Lemma run_snoc N tr l :
  run N (tr ++ [l]) =
  match run N tr with
  | Some (evs, s) =>
      match step N l s with
      | Some (e, s') => Some (evs ++ [e], s')
      | None => None
      end
  | None => None
  end.
Proof.
  unfold run. rewrite run_from_app.
  destruct (run_from N tr [] (init N)) as [[evs s]|]; [|done].
  simpl. by destruct (step N l s) as [[e s']|].
Qed.

(** Induction over the runs of the program. *)
Lemma run_ind N (P : list Label -> list Event -> State -> Prop) :
  P [] [] (init N) ->
  (forall tr evs s l e s',
      run N tr = Some (evs, s) -> P tr evs s -> step N l s = Some (e, s') ->
      P (tr ++ [l]) (evs ++ [e]) s') ->
  forall tr evs s, run N tr = Some (evs, s) -> P tr evs s.
Proof.
  intros Hinit Hstep tr. induction tr as [|l tr IH] using rev_ind; intros evs s H.
  - unfold run in H. simpl in H. by simplify_eq.
  - rewrite run_snoc in H.
    destruct (run N tr) as [[evs0 s0]|] eqn:Hr; [|done].
    destruct (step N l s0) as [[e s']|] eqn:Hs; [|done].
    simplify_eq. eapply Hstep; eauto.
Qed.

Lemma run_length N tr evs s : run N tr = Some (evs, s) -> length evs = length tr.
Proof.
  revert tr evs s. apply run_ind; [done|].
  intros tr evs s l e s' _ IH _. rewrite !length_app. simpl. lia.
Qed.

(** Every prefix of the events of a run is the events of a run. *)
Lemma run_prefix N tr evs s pre post :
  run N tr = Some (evs, s) -> evs = pre ++ post ->
  exists tr0 s0, run N tr0 = Some (pre, s0) /\ (length tr0 <= length tr)%nat.
Proof.
  intros Hrun. revert post. pattern tr, evs, s.
  revert tr evs s Hrun. apply run_ind.
  - intros post H. symmetry in H. apply app_eq_nil in H as [-> _].
    exists [], (init N). done.
  - intros tr evs s l e s' Hr IH Hs post H.
    destruct post as [|x post _] using rev_ind.
    + rewrite app_nil_r in H. subst pre.
      exists (tr ++ [l]), s'. rewrite run_snoc, Hr, Hs. done.
    + rewrite app_assoc in H. apply app_inj_tail in H as [H _].
      destruct (IH post H) as (tr0 & s0 & H0 & Hl).
      exists tr0, s0. split; [done|]. rewrite length_app. simpl. lia.
Qed.

(** ** The control invariant holds in every reachable state *)

Ltac destruct_state s :=
  destruct s as [m cd g cic isum icnt ls am muv wgv co coc cl sk cnt sm wg1v so ex].

Ltac unfold_steps H :=
  unfold step, step_main, step_gen, step_worker, step_collector, step_closer,
    step_sink, panic, fatal, set_lane in H; simpl in H.

Lemma init_lanes_lookup N i ln :
  replicate N (mkLane WNone false CNone) !! i = Some ln ->
  ln = mkLane WNone false CNone /\ (i < N)%nat.
Proof. intros H. by apply lookup_replicate in H. Qed.

Lemma Safe_init N : Safe N (init N).
Proof.
  constructor; simpl; try done.
  - apply length_replicate.
  - apply length_replicate.
  - intros i ln H. apply init_lanes_lookup in H as [-> Hi].
    unfold lane_ok; simpl. repeat split; try done; try lia.
  - by apply total_replicate.
  - rewrite total_replicate; done.
Qed.

(** Closing a goal about one lane from the facts known of the lanes. *)
Ltac lane_solve :=
  unfold lane_ok in *; simpl in *;
  repeat match goal with
         | H : _ /\ _ |- _ => destruct H
         | H : _ <-> _ |- _ => destruct H
         end;
  repeat split; intros; subst; simpl in *;
  repeat match goal with
         | H : ?P -> _ |- _ =>
             let HP := fresh in
             assert P as HP by first [done | lia | congruence];
             specialize (H HP); clear HP
         end;
  first [ done | lia | congruence | exfalso; first [ lia | congruence ] ].

(** Lookup in a list of lanes after lane [i] was replaced. *)
Ltac lane_lookup Hj i j :=
  destruct (decide (j = i)) as [->|];
  [ first [ rewrite list_lookup_insert_eq in Hj by (eapply lookup_lt_Some; eassumption)
          | rewrite list_lookup_alter_eq in Hj ]
  | first [ rewrite list_lookup_insert_ne in Hj by done
          | rewrite list_lookup_alter_ne in Hj by done ] ].

Ltac safe_intro :=
  intros [Hll Hal Hm Hgs Hg Hidle Hlane Hmu Hwg Hcs Hco Hss Hse Hwg1 Hjn Hx].

Ltac lane_goal Hlane i :=
  let j := fresh "j" in let ln' := fresh "ln'" in let Hj := fresh "Hj" in
  intros j ln' Hj; lane_lookup Hj i j; simplify_eq/=;
  [ | specialize (Hlane j ln' Hj) ]; lane_solve.

(** Lanes untouched by a step of [main], [Generator], closer or sink. *)
Ltac same_lanes Hlane :=
  let j := fresh "j" in let ln := fresh "ln" in let Hj := fresh "Hj" in
  intros j ln Hj; specialize (Hlane j ln Hj); apply lookup_lt_Some in Hj;
  lane_solve.

(** The cases in which a step would panic contradict the invariant. *)
Ltac no_panic Hl :=
  exfalso;
  first
    [ match goal with
      | H : _ !! _ = None |- _ =>
          apply lookup_ge_None in H; apply lookup_lt_Some in Hl; lia
      end
    | pose proof (total_lookup_le lane_crit lane_crit_nonneg _ _ _ Hl);
      unfold lane_crit, b2z in *; simpl in *; subst; simpl in *; lia
    | pose proof (total_lookup_le lane_live lane_live_nonneg _ _ _ Hl);
      unfold lane_live, wg_pending in *; simpl in *;
      match goal with m : MState |- _ => destruct m end; lia
    | match goal with c : ClState |- _ => destruct c end;
      simpl in *; intuition congruence ].

Ltac safe_fields Hlane i :=
  constructor; simpl; rewrite ?length_insert, ?length_alter; try done;
  try (erewrite total_insert by eassumption;
       unfold lane_crit, lane_live in *; simpl; lia);
  try (intros _; eapply Nat.le_lt_trans;
       [apply Nat.le_0_l | eapply lookup_lt_Some; eassumption]);
  try lane_goal Hlane i;
  try (unfold lane_ok in *; simpl in *; intuition congruence).

Lemma Safe_step_worker N i s e s' :
  Safe N s -> exit s = None -> step_worker i s = Some (e, s') -> Safe N s'.
Proof.
  safe_intro. intros Hex Hs. destruct_state s. unfold_steps Hs. simpl in *.
  destruct (ls !! i) as [[w oc c]|] eqn:Hl; [|done]. simpl in Hs.
  pose proof (Hlane i _ Hl) as Hok. unfold lane_ok in Hok. simpl in Hok.
  destruct w; repeat case_match; simplify_eq/=.
  all: safe_fields Hlane i.
Qed.

Lemma Safe_step_collector N i s e s' :
  Safe N s -> exit s = None -> step_collector N i s = Some (e, s') -> Safe N s'.
Proof.
  safe_intro. intros Hex Hs. destruct_state s. unfold_steps Hs. simpl in *.
  destruct (ls !! i) as [[w oc c]|] eqn:Hl; [|done]. simpl in Hs.
  pose proof (Hlane i _ Hl) as Hok. unfold lane_ok in Hok. simpl in Hok.
  destruct c; repeat case_match; simplify_eq/=.
  all: safe_fields Hlane i.
  all: try no_panic Hl.
Qed.

Lemma Safe_step_gen N s e s' :
  Safe N s -> exit s = None -> step_gen s = Some (e, s') -> Safe N s'.
Proof.
  safe_intro. intros Hex Hs. destruct_state s. unfold_steps Hs. simpl in *.
  destruct g; repeat case_match; simplify_eq/=.
  all: constructor; simpl; try done.
  all: same_lanes Hlane.
Qed.

Lemma Safe_step_closer N s e s' :
  Safe N s -> exit s = None -> step_closer s = Some (e, s') -> Safe N s'.
Proof.
  safe_intro. intros Hex Hs. destruct_state s. unfold_steps Hs. simpl in *.
  destruct cl; repeat case_match; simplify_eq/=.
  all: constructor; simpl; try done.
  all: try same_lanes Hlane.
  - (* [wg.Wait()] returns: every collector has called [wg.Done()] *)
    intros i ln Hi. pose proof (Hlane i ln Hi) as Hok.
    pose proof (total_nonneg lane_live lane_live_nonneg ls) as Hnn.
    assert (total lane_live ls = 0) as Hz
      by (destruct m; simpl in *; try done; lia).
    pose proof (total_zero_lookup lane_live lane_live_nonneg _ _ _ Hz Hi) as Hl0.
    apply lookup_lt_Some in Hi.
    assert (spawned_collectors (length ls) m = length ls) as Hsp
      by (destruct m; simpl in *; done).
    rewrite Hsp in Hok. unfold lane_live in Hl0.
    destruct ln as [w oc c]. destruct c; simpl in *; try lia; lane_solve.
  - intros Hk. specialize (Hse Hk). destruct Hse; done.
Qed.

Lemma Safe_step_sink N s e s' :
  Safe N s -> exit s = None -> step_sink s = Some (e, s') -> Safe N s'.
Proof.
  safe_intro. intros Hex Hs. destruct_state s. unfold_steps Hs. simpl in *.
  destruct sk; repeat case_match; simplify_eq/=.
  all: constructor; simpl; try done.
  all: try lia.
  all: try (intros Hk; specialize (Hjn Hk); done).
Qed.

Ltac main_fields Hlane :=
  constructor; simpl; rewrite ?length_alter; try done; try lia;
  try same_lanes Hlane.

Lemma Safe_step_main N s e s' :
  Safe N s -> exit s = None -> step_main N s = Some (e, s') -> Safe N s'.
Proof.
  safe_intro. intros Hex Hs. destruct_state s. unfold_steps Hs. simpl in *.
  destruct m; repeat case_match; simplify_eq/=;
    repeat match goal with
      | H : (_ <? _)%nat = true |- _ => apply Nat.ltb_lt in H
      | H : (_ <? _)%nat = false |- _ => apply Nat.ltb_ge in H
      end.
  all: try (main_fields Hlane; fail).
  - (* go Generator *)
    main_fields Hlane. by destruct g.
  - (* go Worker *)
    destruct (lookup_lt_is_Some_2 ls i ltac:(lia)) as [[w oc c] Hl].
    pose proof (Hlane i _ Hl) as Hok. unfold lane_ok in Hok. simpl in Hok.
    assert (w = WNone) as -> by (apply Hok; lia).
    constructor; simpl; rewrite ?length_alter; try done; try lia.
    + intros j ln' Hj. lane_lookup Hj i j; [rewrite Hl in Hj; simplify_eq/=|];
        [|specialize (Hlane j ln' Hj)]; lane_solve.
    + erewrite total_alter by eassumption. unfold lane_crit in *. simpl. lia.
    + erewrite total_alter by eassumption. unfold lane_live in *. simpl. lia.
  - (* go collector *)
    destruct (lookup_lt_is_Some_2 ls i ltac:(lia)) as [[w oc c] Hl].
    pose proof (Hlane i _ Hl) as Hok. unfold lane_ok in Hok. simpl in Hok.
    assert (c = CNone) as -> by (apply Hok; lia).
    constructor; simpl; rewrite ?length_alter; try done; try lia.
    + intros j ln' Hj. lane_lookup Hj i j; [rewrite Hl in Hj; simplify_eq/=|];
        [destruct cl; simpl in * |specialize (Hlane j ln' Hj)]; lane_solve.
    + erewrite total_alter by eassumption. unfold lane_crit in *. simpl. lia.
    + erewrite total_alter by eassumption. unfold lane_live in *. simpl. lia.
  - (* go closer *)
    destruct cl; simpl in *; try done; main_fields Hlane.
  - (* go sink *)
    destruct sk; simpl in *; try done; main_fields Hlane.
  - (* wg1.Wait() returns *)
    destruct sk; simpl in *; try done; try lia; main_fields Hlane.
Qed.

Lemma Safe_step N l s e s' :
  Safe N s -> step N l s = Some (e, s') -> Safe N s'.
Proof.
  intros HS Hs. unfold step in Hs.
  destruct (exit s) eqn:Hex; [done|].
  destruct l.
  - destruct (ctx_done s); [done|]. simplify_eq.
    destruct HS. destruct_state s. constructor; simpl in *; done.
  - eapply Safe_step_main; eauto.
  - eapply Safe_step_gen; eauto.
  - eapply Safe_step_worker; eauto.
  - eapply Safe_step_collector; eauto.
  - eapply Safe_step_closer; eauto.
  - eapply Safe_step_sink; eauto.
Qed.

Lemma Safe_run N tr evs s : run N tr = Some (evs, s) -> Safe N s.
Proof.
  revert tr evs s. apply run_ind; [apply Safe_init|].
  intros tr evs s l e s' _ IH Hs. eapply Safe_step; eauto.
Qed.

(** ** Quiescence once the sink is joined *)

Lemma total_all_zero {A} (f : A -> Z) (l : list A) :
  (forall i x, l !! i = Some x -> f x = 0) -> total f l = 0.
Proof.
  unfold total. induction l as [|a l IH]; intros H; simpl; [done|].
  rewrite (H 0%nat a eq_refl), IH; [done|].
  intros i x Hi. apply (H (S i) x Hi).
Qed.

Lemma joined_Quiet N s : Safe N s -> joined (main s) = true -> Quiet s.
Proof.
  safe_intro. intros Hj. specialize (Hjn Hj).
  assert (chOut_closed s = true /\ chOut s = []) as [Hc He]
    by (apply Hse; rewrite Hjn; done).
  assert (closer s = ClDone) as Hcl
    by (rewrite Hco in Hc; destruct (closer s); done).
  assert (forall i ln, lanes s !! i = Some ln ->
            wk ln = WDone /\ out_closed ln = true /\ col ln = CDone) as Hq.
  { intros i ln Hi. specialize (Hlane i ln Hi). rewrite Hcl in Hlane.
    unfold lane_ok in Hlane. simpl in Hlane.
    destruct Hlane as (Ho & _ & Hc' & _ & _ & Hd).
    specialize (Hd eq_refl). rewrite Hd in Hc'. specialize (Hc' eq_refl).
    rewrite Hc' in Ho. destruct (wk ln); done. }
  constructor; try done.
  destruct (g_busy (gen s)) eqn:Hb; [|done].
  specialize (Hidle eq_refl).
  destruct (lookup_lt_is_Some_2 (lanes s) 0%nat ltac:(lia)) as [ln Hl].
  pose proof (Hlane 0%nat ln Hl) as Hok. destruct (Hq 0%nat ln Hl) as (Hw & _).
  unfold lane_ok in Hok. rewrite Hw in Hok. simpl in Hok.
  destruct Hok as (_ & Hcin & _). specialize (Hcin eq_refl).
  rewrite Hg in Hcin. destruct (gen s); done.
Qed.

(** Once the sink is joined, no goroutine but [main] touches what [main]
    reads and writes. *)
Lemma joined_frame N l s e s' :
  Safe N s -> joined (main s) = true -> l <> LMain ->
  step N l s = Some (e, s') -> report_view s' = report_view s.
Proof.
  intros HS Hj Hl Hs. pose proof (joined_Quiet N s HS Hj) as [Hg Hq Hcl [Hco Hcc] Hsk].
  destruct HS as [_ _ _ _ Hgd _ _ _ _ _ _ _ _ _ _ _].
  destruct_state s. unfold_steps Hs. simpl in *.
  destruct ex; [done|]. destruct l; try done.
  - case_match; simplify_eq/=; done.
  - destruct g; repeat case_match; simplify_eq/=; done.
  - destruct (ls !! i) as [[w oc c]|] eqn:Hi; [|done].
    destruct (Hq i _ Hi) as (? & ? & ?). simplify_eq/=.
  - destruct (ls !! i) as [[w oc c]|] eqn:Hi; [|done].
    destruct (Hq i _ Hi) as (? & ? & ?). simplify_eq/=.
  - simplify_eq/=.
  - simplify_eq/=.
Qed.

(** ** Conservation holds in every reachable state *)

Lemma Conserved_init N : Conserved (init N).
Proof.
  constructor; simpl; try done.
  - rewrite total_replicate by done. done.
  - intros _. rewrite total_replicate by done. done.
  - intros _. rewrite sumZ_replicate_0, total_replicate by done. done.
Qed.

Lemma not_joined_before m : joined m = false -> before_subtract m = true.
Proof. by destruct m. Qed.

Lemma not_joined_subtract_ok m hits ic : joined m = false -> subtract_ok m hits ic.
Proof. by destruct m. Qed.

Ltac cons_intro :=
  intros [Hric Hris Hrc Hrs Hsum Hcount Hhits Hsub Hfatal].

Ltac cons_arith :=
  unfold lane_values, lane_items, lane_unhit, gen_unsummed, gen_uncounted,
    sink_unsummed, sink_uncounted in *;
  simpl in *; rewrite ?length_app, ?sumZ_app; simpl;
  first [ done | apply wrap64_range | wrap_lia ].

Lemma Conserved_step_worker N i s e s' :
  Safe N s -> Conserved s -> exit s = None ->
  step_worker i s = Some (e, s') -> Conserved s'.
Proof.
  intros HS. cons_intro. intros Hexit Hs.
  destruct (joined (main s)) eqn:Hj.
  { destruct (joined_Quiet N s HS Hj) as [_ Hq _ _ _].
    unfold step_worker in Hs. destruct (lanes s !! i) as [ln|] eqn:Hi; [|done].
    destruct (Hq i ln Hi) as (Hw & _). rewrite Hw in Hs. done. }
  pose proof (not_joined_before _ Hj) as Hb.
  specialize (Hcount Hb). specialize (Hhits Hb). clear HS Hsub.
  destruct_state s. unfold_steps Hs. simpl in *.
  destruct (ls !! i) as [[w oc c]|] eqn:Hl; [|done]. simpl in Hs.
  destruct w; repeat case_match; simplify_eq/=.
  all: constructor; simpl; try done; try (intros _).
  all: try (by apply not_joined_subtract_ok).
  all: try (erewrite total_insert by eassumption; cons_arith).
Qed.

Lemma Conserved_step_collector N i s e s' :
  Safe N s -> Conserved s -> exit s = None ->
  step_collector N i s = Some (e, s') -> Conserved s'.
Proof.
  intros HS. cons_intro. intros Hexit Hs.
  destruct (joined (main s)) eqn:Hj.
  { destruct (joined_Quiet N s HS Hj) as [_ Hq _ _ _].
    unfold step_collector in Hs. destruct (lanes s !! i) as [ln|] eqn:Hi; [|done].
    destruct (Hq i ln Hi) as (_ & _ & Hc). rewrite Hc in Hs. done. }
  pose proof (not_joined_before _ Hj) as Hb.
  specialize (Hcount Hb). specialize (Hhits Hb). clear HS Hsub.
  destruct_state s. unfold_steps Hs. simpl in *.
  destruct (ls !! i) as [[w oc c]|] eqn:Hl; [|done]. simpl in Hs.
  destruct c; repeat case_match; simplify_eq/=.
  all: constructor; simpl; try done; try (intros _).
  all: try (by apply not_joined_subtract_ok).
  all: try (erewrite total_insert by eassumption; cons_arith).
  all: try (erewrite sumZ_insert by eassumption;
            erewrite total_insert by eassumption; cons_arith).
Qed.

Lemma Conserved_step_gen N s e s' :
  Safe N s -> Conserved s -> exit s = None ->
  step_gen s = Some (e, s') -> Conserved s'.
Proof.
  intros HS. cons_intro. intros Hexit Hs.
  assert (joined (main s) = true -> g_busy (gen s) = false) as Hq
    by (intros Hj; by destruct (joined_Quiet N s HS Hj)).
  clear HS.
  destruct_state s. unfold_steps Hs. simpl in *.
  destruct g; repeat case_match; simplify_eq/=.
  all: constructor; simpl; try done.
  all: try (intros Hb; specialize (Hcount Hb); specialize (Hhits Hb); cons_arith).
  all: try cons_arith.
  all: destruct (joined m) eqn:Hj; [by specialize (Hq eq_refl)|].
  all: by apply not_joined_subtract_ok.
Qed.

Lemma Conserved_step_sink N s e s' :
  Safe N s -> Conserved s -> exit s = None ->
  step_sink s = Some (e, s') -> Conserved s'.
Proof.
  intros HS. cons_intro. intros Hexit Hs. clear HS.
  destruct_state s. unfold_steps Hs. simpl in *.
  destruct sk; repeat case_match; simplify_eq/=.
  all: constructor; simpl; try done.
  all: try (intros Hb; specialize (Hcount Hb); specialize (Hhits Hb); cons_arith).
  all: try cons_arith.
Qed.

Lemma Conserved_step_closer s e s' :
  Conserved s -> exit s = None ->
  step_closer s = Some (e, s') -> Conserved s'.
Proof.
  cons_intro. intros Hexit Hs.
  destruct_state s. unfold_steps Hs. simpl in *.
  destruct cl; repeat case_match; simplify_eq/=.
  all: constructor; simpl; done.
Qed.

Lemma Quiet_totals s :
  Quiet s ->
  total lane_values (lanes s) = 0 /\ total lane_items (lanes s) = 0
  /\ total lane_unhit (lanes s) = 0
  /\ gen_unsummed (gen s) = 0 /\ gen_uncounted (gen s) = 0
  /\ sink_unsummed (sink s) = 0 /\ sink_uncounted (sink s) = 0
  /\ chOut s = [].
Proof.
  intros [Hg Hq Hcl [Hco Hcc] Hsk].
  repeat split; try done.
  - apply total_all_zero. intros i [w oc c] Hi.
    destruct (Hq i _ Hi) as (? & ? & ?). by simplify_eq/=.
  - apply total_all_zero. intros i [w oc c] Hi.
    destruct (Hq i _ Hi) as (? & ? & ?). by simplify_eq/=.
  - apply total_all_zero. intros i [w oc c] Hi.
    destruct (Hq i _ Hi) as (? & ? & ?). by simplify_eq/=.
  - by destruct (gen s).
  - by destruct (gen s).
  - by rewrite Hsk.
  - by rewrite Hsk.
Qed.

(** The totals agree once the sink is joined. *)
Lemma joined_totals N s :
  Safe N s -> Conserved s -> joined (main s) = true ->
  inputSum s = sum s
  /\ (before_subtract (main s) = true ->
      inputCount s = count s /\ wrap64 (inputCount s - sumZ (amounts s)) = 0).
Proof.
  intros HS. cons_intro. intros Hj.
  pose proof (joined_Quiet N s HS Hj) as HQ.
  destruct (Quiet_totals s HQ) as (Hv & Hi & Hu & Hgs & Hgc & Hss & Hsc & Hco).
  rewrite Hv, Hgs, Hss, Hco in Hsum. simpl in Hsum.
  split.
  - apply wrap64_zero_eq; try done.
    rewrite <- Hsum. f_equal. lia.
  - intros Hb. specialize (Hcount Hb). specialize (Hhits Hb).
    rewrite Hi, Hgc, Hsc, Hco in Hcount. rewrite Hu, Hgc in Hhits.
    simpl in *. split.
    + apply wrap64_zero_eq; try done. rewrite <- Hcount. f_equal. lia.
    + rewrite <- Hhits. f_equal. lia.
Qed.

Lemma Conserved_step_main N s e s' :
  Safe N s -> Conserved s -> exit s = None ->
  step_main N s = Some (e, s') -> Conserved s'.
Proof.
  intros HS HC Hexit Hs.
  pose proof (joined_totals N s HS HC) as Hjt.
  pose proof (safe_lane N s HS) as Hlane.
  pose proof (safe_main N s HS) as Hm.
  pose proof (safe_lanes_len N s HS) as Hll.
  pose proof (safe_gen_started N s HS) as Hgs.
  pose proof (safe_sink_started N s HS) as Hss.
  clear HS. revert HC. cons_intro.
  destruct_state s. unfold_steps Hs. simpl in *.
  destruct m; repeat case_match; simplify_eq/=;
    repeat match goal with
      | H : (_ <? _)%nat = true |- _ => apply Nat.ltb_lt in H
      | H : (_ <? _)%nat = false |- _ => apply Nat.ltb_ge in H
      | H : (_ =? _) = true |- _ => apply Z.eqb_eq in H
      | H : (_ =? _) = false |- _ => apply Z.eqb_neq in H
      end.
  all: try (constructor; simpl; done).
  - (* go Generator *)
    destruct g; try done; constructor; simpl; done.
  - (* go Worker *)
    destruct (lookup_lt_is_Some_2 ls i ltac:(lia)) as [[w oc c] Hl].
    destruct (Hlane i _ Hl) as (_ & _ & _ & Hw & _). simpl in Hw.
    assert (w = WNone) as -> by (apply Hw; lia).
    constructor; simpl; try done; try (intros Hb);
      erewrite total_alter by eassumption; cons_arith.
  - (* go collector *)
    destruct (lookup_lt_is_Some_2 ls i ltac:(lia)) as [[w oc c] Hl].
    destruct (Hlane i _ Hl) as (_ & _ & _ & _ & Hc & _). simpl in Hc.
    assert (c = CNone) as -> by (apply Hc; lia).
    constructor; simpl; try done; try (intros Hb);
      erewrite total_alter by eassumption; cons_arith.
  - (* go sink *)
    destruct sk; try done; constructor; simpl; done.
  - (* line 119 cannot fail *)
    destruct (Hjt eq_refl) as [Heq _]. done.
  - (* line 122 passes *)
    destruct (Hjt eq_refl) as [_ Heq]. destruct (Heq eq_refl) as [_ Hh].
    constructor; simpl; try done.
  - (* line 122 cannot fail *)
    destruct (Hjt eq_refl) as [_ Heq]. destruct (Heq eq_refl) as [Hc _]. done.
  - (* line 126 *)
    constructor; simpl; try done; [apply wrap64_range|].
    erewrite sumZ_drop in Hsub by eassumption. wrap_lia.
  - (* the loop of line 125 ends *)
    constructor; simpl; try done.
    rewrite drop_ge in Hsub by (by apply lookup_ge_None). simpl in Hsub.
    wrap_lia.
Qed.

Lemma Conserved_step N l s e s' :
  Safe N s -> Conserved s -> step N l s = Some (e, s') -> Conserved s'.
Proof.
  intros HS HC Hs. unfold step in Hs.
  destruct (exit s) eqn:Hex; [done|].
  destruct l.
  - destruct (ctx_done s); [done|]. simplify_eq.
    destruct HC. destruct_state s. constructor; simpl in *; done.
  - eapply Conserved_step_main; eauto.
  - eapply Conserved_step_gen; eauto.
  - eapply Conserved_step_worker; eauto.
  - eapply Conserved_step_collector; eauto.
  - eapply Conserved_step_closer; eauto.
  - eapply Conserved_step_sink; eauto.
Qed.

Lemma Conserved_run N tr evs s : run N tr = Some (evs, s) -> Conserved s.
Proof.
  intros Hr. pattern tr, evs, s. revert tr evs s Hr. apply run_ind.
  - apply Conserved_init.
  - intros tr evs s l e s' Hr IH Hs.
    eapply Conserved_step; eauto. eapply Safe_run; eauto.
Qed.

(** ** What the events of a run say *)

Lemma sent_snoc evs e :
  sent (evs ++ [e]) = sent evs ++ match e with EvHandoff _ v => [v] | _ => [] end.
Proof. unfold sent. rewrite omap_app. by destruct e. Qed.

Lemma observed_snoc evs e :
  observed (evs ++ [e]) =
  observed evs ++ match e with EvObserve v => [v] | _ => [] end.
Proof. unfold observed. rewrite omap_app. by destruct e. Qed.

Lemma received_snoc i evs e :
  received i (evs ++ [e]) =
  received i evs ++
    match e with
    | EvHandoff j v => if (j =? i)%nat then [v] else []
    | _ => []
    end.
Proof.
  unfold received. rewrite omap_app. destruct e; try done.
  simpl. by destruct (i0 =? i)%nat.
Qed.

Lemma forwarded_snoc i evs e :
  forwarded i (evs ++ [e]) =
  forwarded i evs ++
    match e with
    | EvForward j v => if (j =? i)%nat then [v] else []
    | _ => []
    end.
Proof.
  unfold forwarded. rewrite omap_app. destruct e; try done.
  simpl. by destruct (i0 =? i)%nat.
Qed.

Lemma sleeps_snoc i evs e :
  sleeps i (evs ++ [e]) =
  sleeps i evs ++
    match e with
    | EvSleep j d => if (j =? i)%nat then [d] else []
    | _ => []
    end.
Proof.
  unfold sleeps. rewrite omap_app. destruct e; try done.
  simpl. by destruct (i0 =? i)%nat.
Qed.

Lemma count_ev_app p evs1 evs2 :
  count_ev p (evs1 ++ evs2) = (count_ev p evs1 + count_ev p evs2)%nat.
Proof. induction evs1 as [|e r IH]; simpl; [done|]. rewrite IH. lia. Qed.

Lemma count_ev_snoc p evs e :
  count_ev p (evs ++ [e]) = (count_ev p evs + if p e then 1 else 0)%nat.
Proof. rewrite count_ev_app. simpl. lia. Qed.

Lemma items_S m : items (S m) = items m ++ [nth_item (S m)].
Proof. unfold items. rewrite seq_S, map_app. done. Qed.

Lemma sumZ_snoc l x : sumZ (l ++ [x]) = sumZ l + x.
Proof. rewrite sumZ_app. simpl. lia. Qed.

Lemma elem_of_snoc_ne (evs : list Event) e x : x <> e -> x ∈ evs ++ [e] <-> x ∈ evs.
Proof.
  intros Hne. rewrite elem_of_app, list_elem_of_singleton. intuition congruence.
Qed.

Lemma elem_of_snoc_eq (evs : list Event) e : e ∈ evs ++ [e].
Proof. rewrite elem_of_app, list_elem_of_singleton. by right. Qed.

Ltac tr_intro :=
  intros [Hsent Hgen Hcnt Hsm Hcin Hseen Hsctx Htmo Hwk Hcout].

Ltac ev_simpl :=
  rewrite ?sent_snoc, ?observed_snoc, ?received_snoc, ?forwarded_snoc,
    ?sleeps_snoc, ?count_ev_snoc; simpl;
  rewrite ?app_nil_r, ?Nat.add_0_r, ?Nat.eqb_refl; simpl.

Lemma Traced_init N : Traced [] (init N).
Proof.
  constructor; simpl; try done.
  - rewrite elem_of_nil. done.
  - rewrite elem_of_nil. done.
  - intros i ln Hi. apply init_lanes_lookup in Hi as [-> _].
    unfold worker_trace_ok. simpl. repeat split; done.
Qed.

(** A step that touches no lane and emits no lane event. *)
Ltac same_workers Hwk :=
  let j := fresh "j" in let ln := fresh "ln" in let Hj := fresh "Hj" in
  intros j ln Hj; specialize (Hwk j ln Hj);
  unfold worker_trace_ok in *; ev_simpl; exact Hwk.

Ltac ev_member :=
  first [ rewrite elem_of_snoc_ne by done; first [assumption | done | tauto]
        | split; [done | intros _; apply elem_of_snoc_eq]
        | intros _; done ].

Ltac tr_arith :=
  unfold nth_item in *; rewrite ?length_app, ?sumZ_snoc; simpl;
  repeat match goal with H : _ /\ _ |- _ => destruct H end;
  repeat split; subst;
  first [ done | congruence | lia | wrap_lia ].

Lemma Traced_step_gen evs s e s' :
  Traced evs s -> exit s = None -> step_gen s = Some (e, s') ->
  Traced (evs ++ [e]) s'.
Proof.
  tr_intro. intros Hexit Hs.
  destruct_state s. unfold_steps Hs. simpl in *.
  destruct g; repeat case_match; simplify_eq/=.
  all: constructor; simpl; ev_simpl; try done.
  all: try same_workers Hwk.
  all: try ev_member.
  all: try (intros Hb; specialize (Hcnt Hb)).
  all: try (rewrite Hcin; done).
  all: try tr_arith.
Qed.

(** Lane [j] after a step of lane [i]. *)
Ltac worker_goal Hwk Hok i :=
  let j := fresh "j" in let ln' := fresh "ln'" in let Hj := fresh "Hj" in
  intros j ln' Hj; lane_lookup Hj i j; simplify_eq/=;
  [ unfold worker_trace_ok in *; simpl in *; ev_simpl
  | specialize (Hwk j ln' Hj); unfold worker_trace_ok in *; ev_simpl;
    repeat match goal with
           | |- context [(i =? j)%nat] =>
               rewrite (proj2 (Nat.eqb_neq i j)) by done
           end;
    simpl; rewrite ?app_nil_r, ?Nat.add_0_r; try exact Hwk ].

Ltac wk_arith :=
  repeat match goal with H : _ /\ _ |- _ => destruct H end;
  rewrite ?length_app; simpl;
  repeat split;
  first [ done | congruence | lia
        | apply Forall_app; split; [done | by repeat constructor] ].

Lemma Traced_step_worker i evs s e s' :
  Traced evs s -> exit s = None -> step_worker i s = Some (e, s') ->
  Traced (evs ++ [e]) s'.
Proof.
  tr_intro. intros Hexit Hs.
  destruct_state s. unfold_steps Hs. simpl in *.
  destruct (ls !! i) as [[w oc c]|] eqn:Hl; [|done]. simpl in Hs.
  pose proof (Hwk i _ Hl) as Hok.
  destruct w; repeat case_match; simplify_eq/=.
  all: constructor; simpl; ev_simpl; try done.
  all: try ev_member.
  all: try (rewrite Hsent at 1; rewrite length_app, Nat.add_comm; simpl;
            rewrite items_S; tr_arith).
  all: try tr_arith.
  all: try (worker_goal Hwk Hok i; wk_arith).
  all: try same_workers Hwk.
  all: try (unfold gen_trace_ok in *; ev_simpl; exact Hgen).
Qed.

Lemma Traced_step_collector N i evs s e s' :
  Traced evs s -> exit s = None -> step_collector N i s = Some (e, s') ->
  Traced (evs ++ [e]) s'.
Proof.
  tr_intro. intros Hexit Hs.
  destruct_state s. unfold_steps Hs. simpl in *.
  destruct (ls !! i) as [[w oc c]|] eqn:Hl; [|done]. simpl in Hs.
  pose proof (Hwk i _ Hl) as Hok.
  destruct c; repeat case_match; simplify_eq/=.
  all: constructor; simpl; ev_simpl; try done.
  all: try ev_member.
  all: try (worker_goal Hwk Hok i; wk_arith).
  all: try same_workers Hwk.
  all: try (unfold gen_trace_ok in *; ev_simpl; exact Hgen).
Qed.

Ltac tr_frame Hwk Hgen Hcin Hcout :=
  constructor; simpl; ev_simpl; try done;
  try ev_member;
  try same_workers Hwk;
  try (unfold gen_trace_ok in *; ev_simpl; exact Hgen);
  try (rewrite Hcin; done);
  try (rewrite Hcout; done).

Lemma Traced_step_closer evs s e s' :
  Traced evs s -> exit s = None -> step_closer s = Some (e, s') ->
  Traced (evs ++ [e]) s'.
Proof.
  tr_intro. intros Hexit Hs.
  destruct_state s. unfold_steps Hs. simpl in *.
  destruct cl; repeat case_match; simplify_eq/=.
  all: tr_frame Hwk Hgen Hcin Hcout.
Qed.

Lemma Traced_step_sink evs s e s' :
  Traced evs s -> exit s = None -> step_sink s = Some (e, s') ->
  Traced (evs ++ [e]) s'.
Proof.
  tr_intro. intros Hexit Hs.
  destruct_state s. unfold_steps Hs. simpl in *.
  destruct sk; repeat case_match; simplify_eq/=.
  all: tr_frame Hwk Hgen Hcin Hcout.
Qed.

Lemma Traced_step_main N evs s e s' :
  Safe N s -> Traced evs s -> exit s = None -> step_main N s = Some (e, s') ->
  Traced (evs ++ [e]) s'.
Proof.
  intros HS. tr_intro. intros Hexit Hs.
  pose proof (safe_lane N s HS) as Hlane.
  pose proof (safe_gen_started N s HS) as Hgs.
  pose proof (safe_lanes_len N s HS) as Hll.
  clear HS.
  destruct_state s. unfold_steps Hs. simpl in *.
  destruct m; repeat case_match; simplify_eq/=;
    repeat match goal with
      | H : (_ <? _)%nat = true |- _ => apply Nat.ltb_lt in H
      | H : (_ <? _)%nat = false |- _ => apply Nat.ltb_ge in H
      end.
  all: try (tr_frame Hwk Hgen Hcin Hcout; fail).
  - (* go Generator *)
    destruct g; try done. simpl in *. destruct Hgen as [Hs0 Ho0].
    tr_frame Hwk Hgen Hcin Hcout.
    rewrite Hs0, Ho0. done.
  - (* go Worker *)
    destruct (lookup_lt_is_Some_2 ls i ltac:(lia)) as [[w oc c] Hl].
    destruct (Hlane i _ Hl) as (_ & _ & _ & Hw & _). simpl in Hw.
    assert (w = WNone) as -> by (apply Hw; lia).
    pose proof (Hwk i _ Hl) as Hok.
    tr_frame Hwk Hgen Hcin Hcout.
    intros j ln' Hj. lane_lookup Hj i j.
    + rewrite Hl in Hj. simplify_eq/=.
      unfold worker_trace_ok in *. simpl in *. ev_simpl.
      destruct Hok as (? & ? & Hr & Hf & Hsl). rewrite Hr, Hf, Hsl. done.
    + specialize (Hwk j ln' Hj). unfold worker_trace_ok in *. ev_simpl.
      exact Hwk.
  - (* go collector *)
    destruct (ls !! i) as [[w oc c]|] eqn:Hl.
    + pose proof (Hwk i _ Hl) as Hok.
      tr_frame Hwk Hgen Hcin Hcout.
      intros j ln' Hj. lane_lookup Hj i j.
      * rewrite Hl in Hj. simplify_eq/=.
        unfold worker_trace_ok in *. simpl in *. ev_simpl. exact Hok.
      * specialize (Hwk j ln' Hj). unfold worker_trace_ok in *. ev_simpl.
        exact Hwk.
    + tr_frame Hwk Hgen Hcin Hcout.
      intros j ln' Hj. lane_lookup Hj i j.
      * rewrite Hl in Hj. done.
      * specialize (Hwk j ln' Hj). unfold worker_trace_ok in *. ev_simpl.
        exact Hwk.
Qed.

Lemma Traced_step N l evs s e s' :
  Safe N s -> Traced evs s -> step N l s = Some (e, s') ->
  Traced (evs ++ [e]) s'.
Proof.
  intros HS HT Hs. unfold step in Hs.
  destruct (exit s) eqn:Hex; [done|].
  destruct l.
  - destruct (ctx_done s) eqn:Hcd; [done|]. simplify_eq.
    revert HT. tr_intro. destruct_state s. simpl in *.
    tr_frame Hwk Hgen Hcin Hcout.
  - eapply Traced_step_main; eauto.
  - eapply Traced_step_gen; eauto.
  - eapply Traced_step_worker; eauto.
  - eapply Traced_step_collector; eauto.
  - eapply Traced_step_closer; eauto.
  - eapply Traced_step_sink; eauto.
Qed.

Lemma Traced_run N tr evs s : run N tr = Some (evs, s) -> Traced evs s.
Proof.
  intros Hr. pattern tr, evs, s. revert tr evs s Hr. apply run_ind.
  - apply Traced_init.
  - intros tr evs s l e s' Hr IH Hs.
    eapply Traced_step; eauto. eapply Safe_run; eauto.
Qed.

(** ** The report *)

(** Only [main] writes to standard output and moves [main]. *)
Lemma step_other_frame N l s e s' :
  l <> LMain -> step N l s = Some (e, s') ->
  stdout s' = stdout s /\ main s' = main s.
Proof.
  intros Hl Hs. destruct_state s. unfold_steps Hs. simpl in *.
  destruct ex; [done|]. destruct l; try done.
  - case_match; by simplify_eq/=.
  - destruct g; repeat case_match; by simplify_eq/=.
  - destruct (ls !! i) as [[w oc c]|]; [|done]. simpl in Hs.
    destruct w; repeat case_match; by simplify_eq/=.
  - destruct (ls !! i) as [[w oc c]|]; [|done]. simpl in Hs.
    destruct c; repeat case_match; by simplify_eq/=.
  - destruct cl; repeat case_match; by simplify_eq/=.
  - destruct sk; repeat case_match; by simplify_eq/=.
Qed.

Lemma Reported_init N : Reported (init N).
Proof. done. Qed.

Lemma Reported_step N l s e s' :
  Safe N s -> Conserved s -> Reported s -> step N l s = Some (e, s') ->
  Reported s'.
Proof.
  intros HS HC HR Hs. unfold Reported in *.
  assert (l = LMain \/ l <> LMain) as [->|Hl]
    by (destruct l; first [by left | by right]).
  - pose proof (joined_totals N s HS HC) as Hjt.
    unfold step in Hs. destruct (exit s) eqn:Hex; [done|].
    destruct_state s. unfold_steps Hs. unfold report in *. simpl in *.
    destruct m; repeat case_match; simplify_eq/=; try done.
    + destruct (Hjt eq_refl) as [_ Hc]. destruct (Hc eq_refl) as [-> _]. done.
    + destruct (Hjt eq_refl) as [-> _]. done.
  - destruct (step_other_frame N l s e s' Hl Hs) as [Ho Hm].
    destruct (joined (main s)) eqn:Hj.
    + pose proof (joined_frame N l s e s' HS Hj Hl Hs) as Hf.
      unfold report_view in Hf. simplify_eq. unfold report.
      rewrite Ho, Hm. rewrite HR. unfold report. congruence.
    + rewrite Ho, Hm, HR. by destruct (main s).
Qed.

Lemma Reported_run N tr evs s : run N tr = Some (evs, s) -> Reported s.
Proof.
  intros Hr. pattern tr, evs, s. revert tr evs s Hr. apply run_ind.
  - apply Reported_init.
  - intros tr evs s l e s' Hr IH Hs.
    eapply Reported_step; eauto; [eapply Safe_run|eapply Conserved_run]; eauto.
Qed.

(** ** Bounds *)

(** A step leaves [amounts] alone or adds one hit to one lane. *)
Lemma step_amounts N l s e s' :
  step N l s = Some (e, s') ->
  amounts s' = amounts s
  \/ exists i h, amounts s !! i = Some h
                 /\ amounts s' = <[i := wrap64 (h + 1)]> (amounts s).
Proof.
  intros Hs. destruct_state s. unfold_steps Hs. simpl in *.
  destruct ex; [done|]. destruct l.
  - case_match; simplify_eq/=. by left.
  - destruct m; repeat case_match; simplify_eq/=; by left.
  - destruct g; repeat case_match; simplify_eq/=; by left.
  - destruct (ls !! i) as [[w oc c]|]; [|done]. simpl in Hs.
    destruct w; repeat case_match; simplify_eq/=; by left.
  - destruct (ls !! i) as [[w oc c]|]; [|done]. simpl in Hs.
    destruct c; repeat case_match; simplify_eq/=; try (by left).
    right. eauto.
  - destruct cl; repeat case_match; simplify_eq/=; by left.
  - destruct sk; repeat case_match; simplify_eq/=; by left.
Qed.

Lemma Bounded_init N : Bounded 0 (init N).
Proof.
  constructor; simpl.
  - intros i h Hi. apply lookup_replicate in Hi as [-> _]. lia.
  - rewrite sumZ_replicate_0. lia.
Qed.

Lemma Bounded_step N l k s e s' :
  Bounded k s -> k + 1 < 2 ^ 63 -> step N l s = Some (e, s') ->
  Bounded (k + 1) s'.
Proof.
  intros [Hh Ht] Hk Hs.
  destruct (step_amounts N l s e s' Hs) as [Heq | (i & h & Hi & Heq)].
  - constructor; rewrite Heq; [done|lia].
  - pose proof (Hh i h Hi) as H0.
    pose proof (sumZ_lookup_le _ i h Hh Hi) as Hle.
    assert (wrap64 (h + 1) = h + 1) as Hw
      by (apply wrap64_id; unfold int64_range; lia).
    rewrite Hw in Heq.
    constructor; rewrite Heq.
    + intros j x Hj. destruct (decide (j = i)) as [->|].
      * rewrite list_lookup_insert_eq in Hj by (by eapply lookup_lt_Some).
        simplify_eq. lia.
      * rewrite list_lookup_insert_ne in Hj by done. by eapply Hh.
    + erewrite sumZ_insert by done. lia.
Qed.

Lemma Bounded_run N tr evs s :
  run N tr = Some (evs, s) -> Z.of_nat (length tr) < 2 ^ 63 ->
  Bounded (Z.of_nat (length tr)) s.
Proof.
  intros Hr. pattern tr, evs, s. revert tr evs s Hr. apply run_ind.
  - intros _. apply Bounded_init.
  - intros tr evs s l e s' Hr IH Hs Hlen.
    rewrite length_app in *. simpl in *.
    replace (Z.of_nat (length tr + 1)) with (Z.of_nat (length tr) + 1) in * by lia.
    eapply Bounded_step; eauto. apply IH. lia.
Qed.

(** ** [main] from line 114 on, as a function *)

Lemma subtract_all_wrap ic hits :
  int64_range ic -> subtract_all ic hits = wrap64 (ic - sumZ hits).
Proof.
  revert ic. unfold subtract_all.
  induction hits as [|v r IH]; intros ic Hic; simpl.
  - rewrite Z.sub_0_r. symmetry. by apply wrap64_id.
  - rewrite IH by apply wrap64_range. wrap_lia.
Qed.

Lemma main_run_exited N fuel s : exit s <> None -> main_run N fuel s = s.
Proof.
  intros He. destruct fuel; [done|]. simpl. unfold step.
  by destruct (exit s).
Qed.

Lemma main_run_subtract N fuel s j :
  main s = MSubtract j -> exit s = None ->
  (length (amounts s) - j + 3 <= fuel)%nat ->
  inputCount (main_run N fuel s)
    = subtract_all (inputCount s) (drop j (amounts s))
  /\ exit (main_run N fuel s)
    = Some (if inputCount (main_run N fuel s) =? 0 then Returned
            else Fatal msg_lanes)
  /\ same_totals s (main_run N fuel s).
Proof.
  revert s j. induction fuel as [|fuel IH]; intros s j Hm He Hf; [lia|].
  destruct_state s. simpl in *. subst. unfold_steps IH.
  unfold step, step_main. simpl.
  destruct (am !! j) as [v|] eqn:Hj.
  - apply lookup_lt_Some in Hj as Hlt.
    edestruct (IH (set_main (MSubtract (S j))
                 (set_inputCount (wrap64 (icnt + wrap64 (- v)))
                    (mkState (MSubtract j) cd g cic isum icnt ls am muv wgv co
                       coc cl sk cnt sm wg1v so None))) (S j))
      as (Hic & Hex & Hsame); simpl; try done; try lia.
    simpl in *. rewrite Hic, Hex.
    erewrite (drop_S am v j) by done. simpl.
    rewrite Hic. done.
  - apply lookup_ge_None in Hj. rewrite drop_ge by done. simpl.
    destruct fuel as [|fuel]; [lia|]. simpl. unfold step, step_main. simpl.
    destruct (icnt =? 0) eqn:Hz; simpl.
    + destruct fuel as [|fuel]; [lia|]. simpl. unfold step, step_main. simpl.
      rewrite main_run_exited by done. simpl. rewrite Hz. done.
    + rewrite main_run_exited by done. simpl. rewrite Hz. done.
Qed.

(** The checks of lines 119-130. *)
Lemma verify_spec N s :
  main s = MCheckSum -> exit s = None ->
  let s' := verify N s in
  same_totals s s'
  /\ (inputSum s <> sum s ->
      exit s' = Some (Fatal (msg_sum (inputSum s) (sum s)))
      /\ inputCount s' = inputCount s)
  /\ (inputSum s = sum s -> inputCount s <> count s ->
      exit s' = Some (Fatal (msg_count (inputCount s) (count s)))
      /\ inputCount s' = inputCount s)
  /\ (inputSum s = sum s -> inputCount s = count s ->
      inputCount s' = subtract_all (inputCount s) (amounts s)
      /\ exit s' = Some (if inputCount s' =? 0 then Returned
                         else Fatal msg_lanes)).
Proof.
  intros Hm He. unfold verify.
  destruct_state s. simpl in *. subst.
  replace (length am + 5)%nat with (S (S (length am + 3))) by lia.
  simpl. unfold step, step_main. simpl.
  destruct (Z.eqb_spec isum sm) as [Hs|Hs]; simpl.
  - unfold step, step_main. simpl.
    destruct (Z.eqb_spec icnt cnt) as [Hc|Hc]; simpl.
    + edestruct (main_run_subtract N (length am + 3)
         (mkState (MSubtract 0) cd g cic isum icnt ls am muv wgv co
                       coc cl sk cnt sm wg1v so None) 0%nat)
        as (Hic & Hex & Hsame); simpl; try done; try lia.
    + rewrite main_run_exited by done. simpl.
      repeat split; try done.
  - repeat split; try done.
Qed.

Lemma main_run_S N k s e s' :
  step N LMain s = Some (e, s') -> main_run N (S k) s = main_run N k s'.
Proof. intros H. simpl. by rewrite H. Qed.

(** Lines 114-130. *)
Lemma report_and_verify_spec N s :
  main s = MPrintCount -> exit s = None ->
  let s' := report_and_verify N s in
  stdout s' = stdout s ++ [line_count (inputCount s) (count s);
                           line_sum (inputSum s) (sum s);
                           line_lanes (amounts s)]
  /\ count s' = count s /\ sum s' = sum s /\ amounts s' = amounts s
  /\ inputSum s' = inputSum s
  /\ (inputSum s <> sum s ->
      exit s' = Some (Fatal (msg_sum (inputSum s) (sum s)))
      /\ inputCount s' = inputCount s)
  /\ (inputSum s = sum s -> inputCount s <> count s ->
      exit s' = Some (Fatal (msg_count (inputCount s) (count s)))
      /\ inputCount s' = inputCount s)
  /\ (inputSum s = sum s -> inputCount s = count s ->
      inputCount s' = subtract_all (inputCount s) (amounts s)
      /\ exit s' = Some (if inputCount s' =? 0 then Returned
                         else Fatal msg_lanes))
  /\ exit s' <> None.
Proof.
  intros Hm He. unfold report_and_verify.
  destruct_state s. cbn [main exit] in Hm, He. subst.
  cbn [amounts stdout inputCount inputSum count sum].
  replace (length am + 8)%nat with (S (S (S (length am + 5)))) by lia.
  erewrite (main_run_S N _ _ EvTau
    (mkState MPrintSum cd g cic isum icnt ls am muv wgv co coc cl sk cnt sm
       wg1v (so ++ [line_count icnt cnt]) None)) by reflexivity.
  erewrite (main_run_S N _ _ EvTau
    (mkState MPrintLanes cd g cic isum icnt ls am muv wgv co coc cl sk cnt sm
       wg1v ((so ++ [line_count icnt cnt]) ++ [line_sum isum sm]) None))
    by reflexivity.
  erewrite (main_run_S N _ _ EvTau
    (mkState MCheckSum cd g cic isum icnt ls am muv wgv co coc cl sk cnt sm
       wg1v (((so ++ [line_count icnt cnt]) ++ [line_sum isum sm])
             ++ [line_lanes am]) None))
    by reflexivity.
  pose proof (verify_spec N
    (mkState MCheckSum cd g cic isum icnt ls am muv wgv co coc cl sk cnt sm wg1v
       (((so ++ [line_count icnt cnt]) ++ [line_sum isum sm]) ++ [line_lanes am])
       None) eq_refl eq_refl) as Hv.
  unfold verify, same_totals in Hv.
  cbn [amounts stdout inputCount inputSum count sum] in Hv.
  destruct Hv as ((Ho & Hc & Hsm & Ha & Hi) & Hv1 & Hv2 & Hv3).
  rewrite Ho, Hc, Hsm, Ha, Hi.
  repeat split; try done; try (apply Hv3; done); try (apply Hv2; done);
    try (apply Hv1; done); [by rewrite <- !app_assoc|].
  destruct (Z.eq_dec isum sm) as [H1|H1].
  - destruct (Z.eq_dec icnt cnt) as [H2|H2].
    + destruct (Hv3 H1 H2) as [_ ->]. done.
    + destruct (Hv2 H1 H2) as [-> _]. done.
  - destruct (Hv1 H1) as [-> _]. done.
Qed.

(** ** Texts *)

Lemma count_nl_app a b : count_nl (a +:+ b) = (count_nl a + count_nl b)%nat.
Proof. induction a as [|c a IH]; simpl; [done|]. rewrite IH. lia. Qed.

Lemma count_nl_uint d : count_nl (NilEmpty.string_of_uint d) = 0%nat.
Proof. induction d; simpl; done. Qed.

Lemma count_nl_dec z : count_nl (dec z) = 0%nat.
Proof.
  unfold dec, NilZero.string_of_int, NilZero.string_of_uint.
  destruct (Z.to_int z) as [d|d]; destruct d; simpl; try done;
    apply count_nl_uint.
Qed.

Lemma count_nl_join_dec l : count_nl (join_sp (map dec l)) = 0%nat.
Proof.
  induction l as [|x l IH]; [done|].
  destruct l as [|y l]; [apply count_nl_dec|].
  change (join_sp (map dec (x :: y :: l)))
    with (dec x +:+ " " +:+ join_sp (map dec (y :: l))).
  rewrite !count_nl_app, count_nl_dec, IH. done.
Qed.

(** Each [Println] of the report writes one line. *)
Lemma line_count_one_line a b : count_nl (line_count a b) = 1%nat.
Proof.
  unfold line_count, println. cbn [join_sp].
  rewrite !count_nl_app, !count_nl_dec. done.
Qed.

Lemma line_sum_one_line a b : count_nl (line_sum a b) = 1%nat.
Proof.
  unfold line_sum, println. cbn [join_sp].
  rewrite !count_nl_app, !count_nl_dec. done.
Qed.

Lemma line_lanes_one_line l : count_nl (line_lanes l) = 1%nat.
Proof.
  unfold line_lanes, println, show_slice. cbn [join_sp].
  rewrite !count_nl_app, count_nl_join_dec. done.
Qed.

Lemma is_prefix_app p m : is_prefix p (p +:+ m) = true.
Proof.
  induction p as [|c p IH]; simpl; [by destruct m|].
  by rewrite Ascii.eqb_refl, IH.
Qed.

Lemma mentions_unfold m p :
  mentions m p =
  is_prefix p m || match m with
                   | EmptyString => false
                   | String _ r => mentions r p
                   end.
Proof. by destruct m. Qed.

Lemma mentions_here p m : mentions (p +:+ m) p = true.
Proof. rewrite mentions_unfold, is_prefix_app. done. Qed.

Lemma mentions_app a p m : mentions (a +:+ p +:+ m) p = true.
Proof.
  induction a as [|c a IH].
  - exact (mentions_here p m).
  - change (String c a +:+ p +:+ m) with (String c (a +:+ p +:+ m)).
    rewrite mentions_unfold, IH. apply orb_true_r.
Qed.

Lemma append_assoc a b c : (a +:+ b) +:+ c = a +:+ (b +:+ c).
Proof.
  induction a as [|x a IH]; [done|].
  change (String x ((a +:+ b) +:+ c) = String x (a +:+ b +:+ c)).
  by rewrite IH.
Qed.

Lemma append_assoc3 a b c m : a +:+ b +:+ c +:+ m = (a +:+ b +:+ c) +:+ m.
Proof. by rewrite !append_assoc. Qed.

(** The messages of lines 120 and 123 carry both numbers. *)
Lemma msg_sum_mentions a b :
  mentions (msg_sum a b) (dec a) = true /\ mentions (msg_sum a b) (dec b) = true.
Proof.
  unfold msg_sum. split.
  - apply mentions_app.
  - rewrite append_assoc3. apply mentions_app.
Qed.

Lemma msg_count_mentions a b :
  mentions (msg_count a b) (dec a) = true
  /\ mentions (msg_count a b) (dec b) = true.
Proof.
  unfold msg_count. split.
  - apply mentions_app.
  - rewrite append_assoc3. apply mentions_app.
Qed.

(** ** Which step emits which event *)

Lemma step_main_event N s e s' : step N LMain s = Some (e, s') -> e = EvTau.
Proof.
  intros Hs. destruct_state s. unfold_steps Hs. simpl in *.
  destruct ex; [done|].
  destruct m; repeat case_match; by simplify_eq/=.
Qed.

Lemma step_main_totals N s e s' :
  step N LMain s = Some (e, s') ->
  count s' = count s /\ sum s' = sum s /\ amounts s' = amounts s.
Proof.
  intros Hs. destruct_state s. unfold_steps Hs. simpl in *.
  destruct ex; [done|].
  destruct m; repeat case_match; by simplify_eq/=.
Qed.

Lemma step_handoff N l s i v s' :
  step N l s = Some (EvHandoff i v, s') ->
  l = LWorker i /\ gen s = GSend v
  /\ exists ln, lanes s !! i = Some ln /\ wk ln = WRecv.
Proof.
  intros Hs. destruct_state s. unfold_steps Hs. simpl in *.
  destruct ex; [done|]. destruct l.
  - case_match; by simplify_eq/=.
  - destruct m; repeat case_match; by simplify_eq/=.
  - destruct g; repeat case_match; by simplify_eq/=.
  - destruct (ls !! i0) as [[w oc c]|] eqn:Hl; [|done]. simpl in Hs.
    destruct w; repeat case_match; simplify_eq/=. eauto.
  - destruct (ls !! i0) as [[w oc c]|]; [|done]. simpl in Hs.
    destruct c; repeat case_match; by simplify_eq/=.
  - destruct cl; repeat case_match; by simplify_eq/=.
  - destruct sk; repeat case_match; by simplify_eq/=.
Qed.


(** In a quiet state the events leave [sent] alone. *)
Lemma quiet_step_sent N l s e s' evs :
  Quiet s -> step N l s = Some (e, s') -> sent (evs ++ [e]) = sent evs.
Proof.
  intros HQ Hs. rewrite sent_snoc. destruct e; rewrite ?app_nil_r; try done.
  apply step_handoff in Hs as (_ & _ & ln & Hl & Hw).
  destruct (quiet_lanes s HQ i ln Hl) as (Hd & _). congruence.
Qed.

(** ** The sink's totals are the generator's *)

Lemma Quiet_observed evs s :
  Quiet s -> Traced evs s ->
  observed evs = sent evs /\ gen_sum_pending (gen s) = 0.
Proof.
  intros HQ HT. pose proof (tr_gen evs s HT) as Hg.
  pose proof (quiet_gen s HQ) as Hb.
  unfold gen_trace_ok in Hg. destruct (gen s); simpl in *; try done.
  - destruct Hg as [-> ->]. done.
  - by destruct Hg.
  - by destruct Hg.
Qed.

Lemma Settled_before N evs s :
  Safe N s -> Conserved s -> Traced evs s ->
  joined (main s) = true -> before_subtract (main s) = true ->
  Settled evs s.
Proof.
  intros HS HC HT Hj Hb.
  pose proof (joined_Quiet N s HS Hj) as HQ.
  destruct (Quiet_observed evs s HQ HT) as [Ho Hp].
  destruct (joined_totals N s HS HC Hj) as [Hsum Hcnt].
  destruct (Hcnt Hb) as [Hc Hh].
  pose proof (tr_count evs s HT Hb) as Hic.
  pose proof (tr_sum evs s HT) as His.
  pose proof (cons_range_inputSum s HC) as Hr.
  rewrite Hp, Ho in His. rewrite Ho in Hic.
  unfold Settled. rewrite <- Hc, <- Hsum. repeat split; try done.
  wrap_lia.
Qed.

Lemma before_subtract_pred N s e s' :
  step N LMain s = Some (e, s') -> joined (main s') = true ->
  before_subtract (main s') = false -> joined (main s) = true.
Proof.
  intros Hs. destruct_state s. unfold_steps Hs. simpl in *.
  destruct ex; [done|].
  destruct m; repeat case_match; by simplify_eq/=.
Qed.

Lemma Settled_run N tr evs s :
  run N tr = Some (evs, s) -> joined (main s) = true -> Settled evs s.
Proof.
  intros Hr. pattern tr, evs, s. revert tr evs s Hr. apply run_ind; [done|].
  intros tr evs s l e s' Hr IH Hs Hj.
  assert (run N (tr ++ [l]) = Some (evs ++ [e], s')) as Hr'
    by (by rewrite run_snoc, Hr, Hs).
  destruct (before_subtract (main s')) eqn:Hb.
  { eapply Settled_before; eauto;
      [eapply Safe_run|eapply Conserved_run|eapply Traced_run]; eauto. }
  pose proof (Safe_run _ _ _ _ Hr) as HS.
  assert (l = LMain \/ l <> LMain) as [->|Hl]
    by (destruct l; first [by left | by right]).
  - pose proof (before_subtract_pred N s e s' Hs Hj Hb) as Hj0.
    specialize (IH Hj0). unfold Settled in *.
    destruct (step_main_totals N s e s' Hs) as (-> & -> & ->).
    rewrite (step_main_event N s e s' Hs), sent_snoc, app_nil_r. done.
  - destruct (step_other_frame N l s e s' Hl Hs) as [_ Hm].
    rewrite Hm in Hj. specialize (IH Hj).
    pose proof (joined_frame N l s e s' HS Hj Hl Hs) as Hf.
    unfold report_view in Hf. simplify_eq.
    unfold Settled in *.
    rewrite (quiet_step_sent N l s e s' evs (joined_Quiet N s HS Hj) Hs).
    congruence.
Qed.

(** ** How a run ends *)

Lemma step_exit N l s e s' :
  step N l s = Some (e, s') ->
  exit s' = None \/ exit s' = Some Panicked
  \/ (exists m, exit s' = Some (Fatal m))
  \/ (exit s' = Some Returned /\ main s' = MReturn).
Proof.
  intros Hs. destruct_state s. unfold_steps Hs. simpl in *.
  destruct ex; [done|]. destruct l.
  - case_match; simplify_eq/=. by left.
  - destruct m; repeat case_match; simplify_eq/=; eauto.
  - destruct g; repeat case_match; simplify_eq/=; eauto.
  - destruct (ls !! i) as [[w oc c]|]; [|done]. simpl in Hs.
    destruct w; repeat case_match; simplify_eq/=; eauto.
  - destruct (ls !! i) as [[w oc c]|]; [|done]. simpl in Hs.
    destruct c; repeat case_match; simplify_eq/=; eauto.
  - destruct cl; repeat case_match; simplify_eq/=; eauto.
  - destruct sk; repeat case_match; simplify_eq/=; eauto.
Qed.

(** A run never panics and never fails a check: if the process has
    ended, [main] returned. *)
Lemma run_exit N tr evs s :
  run N tr = Some (evs, s) -> exit s <> None ->
  exit s = Some Returned /\ main s = MReturn.
Proof.
  intros Hr. pose proof (Safe_run _ _ _ _ Hr) as HS.
  pose proof (Conserved_run _ _ _ _ Hr) as HC.
  revert HS HC. pattern tr, evs, s. revert tr evs s Hr. apply run_ind; [done|].
  intros tr evs s l e s' Hr _ Hs HS HC Hne.
  destruct (step_exit N l s e s' Hs) as [H|[H|[[m H]|H]]]; try done.
  - by destruct (safe_exit N s' HS).
  - by destruct (cons_exit s' HC m).
Qed.

Lemma sent_length_le evs : (length (sent evs) <= length evs)%nat.
Proof.
  induction evs as [|e evs IH] using rev_ind; [done|].
  rewrite sent_snoc, !length_app. destruct e; simpl; lia.
Qed.

Lemma items_small m : Z.of_nat m < 2 ^ 63 -> items m = map Z.of_nat (seq 1 m).
Proof.
  intros Hm. unfold items. apply map_ext_in. intros k Hk.
  apply in_seq in Hk. apply wrap64_id. unfold int64_range. lia.
Qed.

Lemma step_observe N l s v s' :
  step N l s = Some (EvObserve v, s') -> l = LGen /\ gen s = GObsCount v.
Proof.
  intros Hs. destruct_state s. unfold_steps Hs. simpl in *.
  destruct ex; [done|]. destruct l.
  - case_match; by simplify_eq/=.
  - destruct m; repeat case_match; by simplify_eq/=.
  - destruct g; repeat case_match; by simplify_eq/=.
  - destruct (ls !! i) as [[w oc c]|]; [|done]. simpl in Hs.
    destruct w; repeat case_match; by simplify_eq/=.
  - destruct (ls !! i) as [[w oc c]|]; [|done]. simpl in Hs.
    destruct c; repeat case_match; by simplify_eq/=.
  - destruct cl; repeat case_match; by simplify_eq/=.
  - destruct sk; repeat case_match; by simplify_eq/=.
Qed.

(** The generator starts waiting on [ch <- n] only while the context is
    not cancelled. *)
Lemma step_sending N l s e s' :
  step N l s = Some (e, s') -> g_sending (gen s') = true ->
  g_sending (gen s) = true \/ ctx_done s = false.
Proof.
  intros Hs. destruct_state s. unfold_steps Hs. simpl in *.
  destruct ex; [done|]. destruct l.
  - case_match; simplify_eq/=; intros; first [done | by left | by right].
  - destruct m; repeat case_match; simplify_eq/=; intros; first [done | by left | by right].
  - destruct g; repeat case_match; simplify_eq/=; intros; first [done | by left | by right].
  - destruct (ls !! i) as [[w oc c]|]; [|done]. simpl in Hs.
    destruct w; repeat case_match; simplify_eq/=; intros; first [done | by left | by right].
  - destruct (ls !! i) as [[w oc c]|]; [|done]. simpl in Hs.
    destruct c; repeat case_match; simplify_eq/=; intros; first [done | by left | by right].
  - destruct cl; repeat case_match; simplify_eq/=; intros; first [done | by left | by right].
  - destruct sk; repeat case_match; simplify_eq/=; intros; first [done | by left | by right].
Qed.

Lemma step_handoff_after N l s i v s' :
  step N l s = Some (EvHandoff i v, s') -> g_sending (gen s') = false.
Proof.
  intros Hs. destruct_state s. unfold_steps Hs. simpl in *.
  destruct ex; [done|]. destruct l.
  - case_match; by simplify_eq/=.
  - destruct m; repeat case_match; by simplify_eq/=.
  - destruct g; repeat case_match; by simplify_eq/=.
  - destruct (ls !! i0) as [[w oc c]|]; [|done]. simpl in Hs.
    destruct w; repeat case_match; by simplify_eq/=.
  - destruct (ls !! i0) as [[w oc c]|]; [|done]. simpl in Hs.
    destruct c; repeat case_match; by simplify_eq/=.
  - destruct cl; repeat case_match; by simplify_eq/=.
  - destruct sk; repeat case_match; by simplify_eq/=.
Qed.

(** * The properties of the pipeline *)

(** The demo schedules are runs of the program. *)
Lemma demo_drain_run : run 2 demo_drain = Some demo_drained.
Proof. vm_compute. reflexivity. Qed.

Lemma demo_report_run : run 2 demo_report = Some demo_reported.
Proof. vm_compute. reflexivity. Qed.

Lemma demo_full_run : run 2 demo_full = Some demo_ended.
Proof. vm_compute. reflexivity. Qed.

(** C1. Conservation.  In every run, for every number [N] of lanes and
    wherever in the schedule the deadline fires: once the sink is joined
    every other goroutine has finished and every channel is closed and
    empty; what the sink counted and summed is what the generator sent;
    [inputSum] equals [sum]; and until [main] starts subtracting (so at
    the checks of lines 119-124) [inputCount] equals [count].  No run ends
    in [log.Fatalf]. *)
Theorem conservation N tr evs s :
  run N tr = Some (evs, s) -> joined (main s) = true ->
  Quiet s
  /\ count s = wrap64 (Z.of_nat (length (sent evs)))
  /\ sum s = wrap64 (sumZ (sent evs))
  /\ inputSum s = sum s
  /\ (before_subtract (main s) = true -> inputCount s = count s)
  /\ (forall m, exit s <> Some (Fatal m)).
Proof.
  intros Hr Hj.
  pose proof (Safe_run _ _ _ _ Hr) as HS.
  pose proof (Conserved_run _ _ _ _ Hr) as HC.
  destruct (Settled_run _ _ _ _ Hr Hj) as (Hc & Hs & _).
  destruct (joined_totals N s HS HC Hj) as [Hsum Hcnt].
  split; [by eapply joined_Quiet|].
  split; [done|]. split; [done|]. split; [done|].
  split; [intros Hb; by destruct (Hcnt Hb)|].
  apply (cons_exit s HC).
Qed.

Lemma conservation_witness :
  joined (main (snd demo_drained)) = true
  /\ count (snd demo_drained) = 5 /\ sum (snd demo_drained) = 15
  /\ inputSum (snd demo_drained) = sum (snd demo_drained)
  /\ inputCount (snd demo_drained) = count (snd demo_drained).
Proof.
  destruct (conservation 2 demo_drain (fst demo_drained) (snd demo_drained)
              demo_drain_run eq_refl) as (_ & Hc & Hs & Hsum & Hcnt & _).
  exact (conj eq_refl (conj Hc (conj Hs (conj Hsum (Hcnt eq_refl))))).
Defined.

(** C2. Lane partition.  In every run of fewer than [2^63] steps (so that
    no counter has wrapped), once the sink is joined: [amounts] has one
    entry per lane, every entry is non-negative, and the entries add up to
    the number of values the generator sent, which is [count] and, until
    [main] starts subtracting, [inputCount]. *)
Theorem lane_partition N tr evs s :
  run N tr = Some (evs, s) -> joined (main s) = true ->
  Z.of_nat (length tr) < 2 ^ 63 ->
  length (amounts s) = N
  /\ (forall i h, amounts s !! i = Some h -> 0 <= h)
  /\ sumZ (amounts s) = Z.of_nat (length (sent evs))
  /\ sumZ (amounts s) = count s
  /\ (before_subtract (main s) = true -> sumZ (amounts s) = inputCount s).
Proof.
  intros Hr Hj Hlen.
  pose proof (Safe_run _ _ _ _ Hr) as HS.
  pose proof (Conserved_run _ _ _ _ Hr) as HC.
  destruct (Bounded_run _ _ _ _ Hr Hlen) as [Hh Ht].
  destruct (Settled_run _ _ _ _ Hr Hj) as (Hc & _ & Hw).
  destruct (joined_totals N s HS HC Hj) as [_ Hcnt].
  pose proof (sumZ_nonneg _ Hh) as H0.
  pose proof (sent_length_le evs) as Hle.
  pose proof (run_length _ _ _ _ Hr) as Hl.
  assert (count s = Z.of_nat (length (sent evs))) as Hc'.
  { rewrite Hc. apply wrap64_id. unfold int64_range. lia. }
  assert (sumZ (amounts s) = count s) as Heq.
  { symmetry. apply wrap64_zero_eq; try done.
    - apply (cons_range_count s HC).
    - unfold int64_range. lia. }
  repeat split; try done.
  - apply (safe_amounts_len N s HS).
  - congruence.
  - intros Hb. destruct (Hcnt Hb) as [-> _]. done.
Qed.

Lemma lane_partition_witness :
  joined (main (snd demo_drained)) = true
  /\ Z.of_nat (length demo_drain) < 2 ^ 63
  /\ sumZ (amounts (snd demo_drained)) = 5
  /\ sumZ (amounts (snd demo_drained)) = inputCount (snd demo_drained).
Proof.
  destruct (lane_partition 2 demo_drain (fst demo_drained) (snd demo_drained)
              demo_drain_run eq_refl eq_refl) as (_ & _ & Hs & _ & Hi).
  exact (conj eq_refl (conj eq_refl (conj Hs (Hi eq_refl)))).
Defined.

(** The observer is never ahead of the sends and at most one call
    behind. *)
Lemma observed_behind N tr evs s :
  run N tr = Some (evs, s) ->
  exists pending,
    sent evs = observed evs ++ pending /\ (length pending <= 1)%nat.
Proof.
  intros Hr. pose proof (tr_gen evs s (Traced_run _ _ _ _ Hr)) as Hg.
  unfold gen_trace_ok in Hg.
  destruct (gen s);
    first [ exists []; rewrite app_nil_r;
            split; [intuition congruence | simpl; lia]
          | exists [n]; split; [intuition congruence | simpl; lia] ].
Qed.



(** C4. The observer.  At every point of every run the observer has been
    called with exactly the values sent so far, in the same order, except
    possibly the last one: a call never comes before its send and no value
    is observed twice.  When a value is sent and not yet observed the
    generator stands in front of the call ([GObsCount]) and its next step,
    which nothing can block, is that call.  In every other state, and in
    particular once the process has ended, every value sent has been
    observed. *)
Theorem observer_after_send N tr evs s pre post :
  run N tr = Some (evs, s) -> evs = pre ++ post ->
  (exists pending,
     sent pre = observed pre ++ pending /\ (length pending <= 1)%nat)
  /\ (forall n, gen s = GObsCount n ->
        sent evs = observed evs ++ [n]
        /\ (exit s = None ->
            exists s', step N LGen s = Some (EvObserve n, s')))
  /\ ((forall n, gen s <> GObsCount n) -> observed evs = sent evs)
  /\ (exit s <> None -> observed evs = sent evs).
Proof.
  intros Hr Hsplit.
  destruct (run_prefix N tr evs s pre post Hr Hsplit) as (tr0 & s0 & Hr0 & _).
  pose proof (observed_behind N tr0 pre s0 Hr0) as Hpre.
  pose proof (Traced_run _ _ _ _ Hr) as HT.
  pose proof (tr_gen evs s HT) as Hg. unfold gen_trace_ok in Hg.
  split; [exact Hpre|]. split; [|split].
  - intros n Hn. rewrite Hn in Hg. split; [by destruct Hg|].
    intros He. unfold step, step_gen. rewrite He, Hn. eauto.
  - intros Hne. destruct (gen s) eqn:E; try (by destruct Hg); try done.
    + destruct Hg as [-> ->]. done.
    + by destruct (Hne n).
  - intros He. destruct (run_exit N tr evs s Hr He) as [_ Hm].
    pose proof (Safe_run _ _ _ _ Hr) as HS.
    assert (joined (main s) = true) as Hj by (by rewrite Hm).
    by destruct (Quiet_observed evs s (joined_Quiet N s HS Hj) HT).
Qed.

Lemma observer_after_send_witness :
  (exists pending,
     sent (take 4 (fst demo_ended))
       = observed (take 4 (fst demo_ended)) ++ pending
     /\ (length pending <= 1)%nat)
  /\ observed (fst demo_ended) = sent (fst demo_ended).
Proof.
  destruct (observer_after_send 2 demo_full (fst demo_ended) (snd demo_ended)
              (take 4 (fst demo_ended)) (drop 4 (fst demo_ended))
              demo_full_run eq_refl) as (Hp & _ & _ & He).
  exact (conj Hp (He ltac:(discriminate))).
Defined.





(** C9. Cancellation.  In every run: after the select of the generator
    has taken the [ctx.Done()] branch no value is sent and the observer is
    not called, the generator has left its loop, and no step of any
    goroutine can complete a send on [chIn]; and after the deadline has
    fired at most one more value is sent, namely the one the generator
    was already blocked on.  (Wall-clock time is not part of the model:
    this is the bound in steps.) *)
Theorem no_send_after_cancel N tr evs s :
  run N tr = Some (evs, s) ->
  (forall pre post, evs = pre ++ EvGenSeenDone :: post ->
     sent post = [] /\ observed post = [])
  /\ (forall pre post, evs = pre ++ EvTimeout :: post ->
        (length (sent post) <= 1)%nat)
  /\ (EvGenSeenDone ∈ evs ->
      g_exited (gen s) = true
      /\ forall l e s', step N l s = Some (e, s') ->
           forall i v, e <> EvHandoff i v).
Proof.
  intros Hr. split; [|split].
  - pattern tr, evs, s. revert tr evs s Hr. apply run_ind.
    { intros pre post H. by destruct pre. }
    intros tr evs s l e s' Hr IH Hs pre post H.
    destruct post as [|x post _] using rev_ind; [done|].
    rewrite app_comm_cons, app_assoc in H.
    apply app_inj_tail in H as [H ->].
    destruct (IH pre post H) as [IH1 IH2].
    pose proof (Traced_run _ _ _ _ Hr) as HT.
    assert (g_exited (gen s) = true) as Hx.
    { apply (tr_seen evs s HT). rewrite H, elem_of_app. right. left. }
    rewrite sent_snoc, observed_snoc, IH1, IH2.
    destruct x; try done.
    + apply step_handoff in Hs as (_ & Hg & _). by rewrite Hg in Hx.
    + apply step_observe in Hs as (_ & Hg). by rewrite Hg in Hx.
  - cut (forall pre post, evs = pre ++ EvTimeout :: post ->
           (length (sent post) + b2n (g_sending (gen s)) <= 1)%nat).
    { intros Hc pre post H. specialize (Hc pre post H). lia. }
    pattern tr, evs, s. revert tr evs s Hr. apply run_ind.
    { intros pre post H. by destruct pre. }
    intros tr evs s l e s' Hr IH Hs pre post H.
    destruct post as [|x post _] using rev_ind.
    { simpl. destruct (g_sending (gen s')); simpl; lia. }
    rewrite app_comm_cons, app_assoc in H.
    apply app_inj_tail in H as [H ->].
    specialize (IH pre post H).
    pose proof (Traced_run _ _ _ _ Hr) as HT.
    assert (ctx_done s = true) as Hcd.
    { apply (tr_timeout evs s HT). rewrite H, elem_of_app. right. left. }
    rewrite sent_snoc, length_app.
    destruct (g_sending (gen s')) eqn:Hg'.
    + destruct (step_sending N l s x s' Hs Hg') as [Hg|Hg]; [|congruence].
      rewrite Hg in IH. simpl in *.
      destruct x; simpl; try lia.
      apply step_handoff_after in Hs. congruence.
    + simpl. destruct x; simpl; try lia.
      apply step_handoff in Hs as (_ & Hg & _). rewrite Hg in IH.
      simpl in IH. lia.
  - intros Hin. pose proof (Traced_run _ _ _ _ Hr) as HT.
    assert (g_exited (gen s) = true) as Hx by (by apply (tr_seen evs s HT)).
    split; [done|]. intros l e s' Hs i v ->.
    apply step_handoff in Hs as (_ & Hg & _). by rewrite Hg in Hx.
Qed.

Lemma no_send_after_cancel_witness :
  sent (drop 45 (fst demo_ended)) = []
  /\ (length (sent (drop 44 (fst demo_ended))) <= 1)%nat.
Proof.
  destruct (no_send_after_cancel 2 demo_full (fst demo_ended) (snd demo_ended)
              demo_full_run) as (Hs & Ht & _).
  exact (conj (proj1 (Hs (take 44 (fst demo_ended))
                         (drop 45 (fst demo_ended)) eq_refl))
              (Ht (take 43 (fst demo_ended)) (drop 44 (fst demo_ended))
                  eq_refl)).
Defined.

(** C7 as the code has it.  From line 119 on, whatever the totals are: a
    mismatch of the sums ends the process with [log.Fatalf] and the text
    of line 120, which carries both sums; otherwise a mismatch of the
    counts ends it with the text of line 123, which carries both counts;
    otherwise, if [amounts] does not add up to [inputCount] (modulo
    [2^64]) it ends with the text of line 129, which is a fixed text
    without any number; otherwise [main] returns.  [log.Fatalf] exits
    with status 1, a return with status 0, and the three texts start
    differently. *)
Theorem verifier_outcome N s :
  main s = MCheckSum -> exit s = None -> int64_range (inputCount s) ->
  (inputSum s <> sum s ->
   exit (verify N s) = Some (Fatal (msg_sum (inputSum s) (sum s))))
  /\ (inputSum s = sum s -> inputCount s <> count s ->
      exit (verify N s) = Some (Fatal (msg_count (inputCount s) (count s))))
  /\ (inputSum s = sum s -> inputCount s = count s ->
      wrap64 (inputCount s - sumZ (amounts s)) <> 0 ->
      exit (verify N s) = Some (Fatal msg_lanes))
  /\ (inputSum s = sum s -> inputCount s = count s ->
      wrap64 (inputCount s - sumZ (amounts s)) = 0 ->
      exit (verify N s) = Some Returned)
  /\ (forall a b, mentions (msg_sum a b) (dec a) = true
                  /\ mentions (msg_sum a b) (dec b) = true
                  /\ is_prefix "Ошибка: суммы" (msg_sum a b) = true)
  /\ (forall a b, mentions (msg_count a b) (dec a) = true
                  /\ mentions (msg_count a b) (dec b) = true
                  /\ is_prefix "Ошибка: количество" (msg_count a b) = true)
  /\ (has_digit msg_lanes = false
      /\ is_prefix "Ошибка: разделение" msg_lanes = true)
  /\ (forall m, exit_status (Fatal m) = 1) /\ exit_status Returned = 0.
Proof.
  intros Hm He Hr.
  destruct (verify_spec N s Hm He) as (_ & H1 & H2 & H3).
  split; [intros Hs; by destruct (H1 Hs)|].
  split; [intros Hs Hc; by destruct (H2 Hs Hc)|].
  split.
  { intros Hs Hc Hw. destruct (H3 Hs Hc) as [Hi ->].
    rewrite Hi, subtract_all_wrap by done.
    by destruct (Z.eqb_spec (wrap64 (inputCount s - sumZ (amounts s))) 0). }
  split.
  { intros Hs Hc Hw. destruct (H3 Hs Hc) as [Hi ->].
    rewrite Hi, subtract_all_wrap, Hw by done. done. }
  split.
  { intros a b. destruct (msg_sum_mentions a b). by repeat split. }
  split.
  { intros a b. destruct (msg_count_mentions a b). by repeat split. }
  by repeat split.
Qed.

Lemma verifier_outcome_witness :
  exit (verify 2 (snd demo_reported)) = Some Returned.
Proof.
  assert (int64_range (inputCount (snd demo_reported))) as Hr
    by (vm_compute; split; [discriminate | reflexivity]).
  destruct (verifier_outcome 2 (snd demo_reported) eq_refl eq_refl Hr)
    as (_ & _ & _ & H & _).
  apply H; vm_compute; reflexivity.
Defined.

(** C7 as stated fails: in [partition_violation] the sums agree, the
    counts agree, [amounts] adds up to 0 while [inputCount] is 1, and the
    message of the failed check contains neither number: it contains no
    digit at all. *)
Lemma verifier_lanes_message_without_values :
  main partition_violation = MCheckSum
  /\ inputSum partition_violation = sum partition_violation
  /\ inputCount partition_violation = count partition_violation
  /\ sumZ (amounts partition_violation) <> inputCount partition_violation
  /\ exists m,
       exit (verify 1 partition_violation) = Some (Fatal m)
       /\ mentions m (dec (inputCount partition_violation)) = false
       /\ mentions m (dec (sumZ (amounts partition_violation))) = false
       /\ has_digit m = false.
Proof.
  repeat split; try done.
  exists msg_lanes. by vm_compute.
Qed.

(** The texts of the three [Println], character by character. *)
Lemma join_sp_concat l : join_sp l = Stdlib.Strings.String.concat " " l.
Proof.
  induction l as [|x l IH]; [done|].
  destruct l as [|y l]; [done|].
  change (join_sp (x :: y :: l)) with (x +:+ " " +:+ join_sp (y :: l)).
  by rewrite IH.
Qed.

Lemma line_count_text a b :
  line_count a b
  = ("Количество чисел " +:+ dec a +:+ " " +:+ dec b
     +:+ String "010"%char EmptyString)%string.
Proof.
  unfold line_count, println. cbn [join_sp]. rewrite !append_assoc. done.
Qed.

Lemma line_sum_text a b :
  line_sum a b
  = ("Сумма чисел " +:+ dec a +:+ " " +:+ dec b
     +:+ String "010"%char EmptyString)%string.
Proof.
  unfold line_sum, println. cbn [join_sp]. rewrite !append_assoc. done.
Qed.

Lemma line_lanes_text l :
  line_lanes l
  = ("Разбивка по каналам ["
     +:+ Stdlib.Strings.String.concat " " (map dec l) +:+ "]"
     +:+ String "010"%char EmptyString)%string.
Proof.
  unfold line_lanes, println, show_slice. cbn [join_sp].
  rewrite join_sp_concat, !append_assoc. done.
Qed.

(** C8. The report.  In every run nothing is written to standard output
    before the sink is joined, and when the process has ended standard
    output holds exactly three lines, written by the three [Println] in
    this order: the label of line 114, the source count and the sink
    count (which are equal, and are the number of values sent); the
    label of line 115 and the two sums (equal, the sum of the values
    sent); the label of line 116 and, between brackets, the [N] entries
    of [amounts] in lane order.  Numbers are in decimal, operands are
    separated by one space, every line ends with a newline. *)
Theorem report_three_lines N tr evs s :
  run N tr = Some (evs, s) ->
  stdout s = take (printed (main s)) (report s)
  /\ (joined (main s) = false -> stdout s = [])
  /\ (exit s <> None ->
      stdout s = [line_count (count s) (count s); line_sum (sum s) (sum s);
                  line_lanes (amounts s)]
      /\ length (amounts s) = N
      /\ Forall (fun ln => count_nl ln = 1%nat) (stdout s)
      /\ stdout s
         = [ ("Количество чисел " +:+ dec (count s) +:+ " " +:+ dec (count s)
              +:+ String "010"%char EmptyString)%string;
             ("Сумма чисел " +:+ dec (sum s) +:+ " " +:+ dec (sum s)
              +:+ String "010"%char EmptyString)%string;
             ("Разбивка по каналам ["
              +:+ Stdlib.Strings.String.concat " " (map dec (amounts s))
              +:+ "]" +:+ String "010"%char EmptyString)%string ]
      /\ count s = wrap64 (Z.of_nat (length (sent evs)))
      /\ sum s = wrap64 (sumZ (sent evs)))
  /\ (forall z, dec z = NilZero.string_of_int (Z.to_int z)).
Proof.
  intros Hr. pose proof (Reported_run _ _ _ _ Hr) as HR.
  unfold Reported in HR.
  split; [done|]. split; [|split; [|done]].
  - intros Hj. rewrite HR. by destruct (main s).
  - intros He. destruct (run_exit _ _ _ _ Hr He) as [_ Hm].
    assert (joined (main s) = true) as Hj by (by rewrite Hm).
    destruct (Settled_run _ _ _ _ Hr Hj) as (Hc & Hs & _).
    rewrite Hm in HR. simpl in HR. rewrite HR.
    split; [done|]. split; [apply (safe_amounts_len N s (Safe_run _ _ _ _ Hr))|].
    split.
    { unfold report. repeat constructor.
      + apply line_count_one_line.
      + apply line_sum_one_line.
      + apply line_lanes_one_line. }
    split; [|done]. unfold report.
    by rewrite line_count_text, line_sum_text, line_lanes_text.
Qed.

Lemma report_three_lines_witness :
  stdout (snd demo_ended)
  = [ ("Количество чисел 5 5" +:+ String "010"%char EmptyString)%string;
      ("Сумма чисел 15 15" +:+ String "010"%char EmptyString)%string;
      ("Разбивка по каналам [4 1]"
       +:+ String "010"%char EmptyString)%string ].
Proof.
  destruct (report_three_lines 2 demo_full (fst demo_ended) (snd demo_ended)
              demo_full_run) as (_ & _ & H & _).
  assert (exit (snd demo_ended) <> None) as He by discriminate.
  exact (proj1 (proj2 (proj2 (proj2 (H He))))).
Defined.

(** C10. The verifier is destructive and reports first.  From line 114
    on, whatever the totals are: the three lines are appended to standard
    output with the values the counters have at that point, and they are
    there whether the checks pass or fail; the sink totals, [inputSum] and
    [amounts] are left alone; when the first two checks pass, the loop of
    lines 125-127 leaves in [inputCount] what remains of it after
    subtracting every entry of [amounts]; and when [main] returns,
    [inputCount] is 0 while the line printed shows its former value. *)
Theorem verifier_destructive N s :
  main s = MPrintCount -> exit s = None -> int64_range (inputCount s) ->
  stdout (report_and_verify N s)
  = stdout s ++ [line_count (inputCount s) (count s);
                 line_sum (inputSum s) (sum s); line_lanes (amounts s)]
  /\ exit (report_and_verify N s) <> None
  /\ count (report_and_verify N s) = count s
  /\ sum (report_and_verify N s) = sum s
  /\ inputSum (report_and_verify N s) = inputSum s
  /\ amounts (report_and_verify N s) = amounts s
  /\ (inputSum s = sum s -> inputCount s = count s ->
      inputCount (report_and_verify N s)
      = wrap64 (inputCount s - sumZ (amounts s)))
  /\ (exit (report_and_verify N s) = Some Returned ->
      inputCount (report_and_verify N s) = 0
      /\ inputCount s = count s
      /\ wrap64 (inputCount s - sumZ (amounts s)) = 0)
  /\ stdout (report_and_verify N s)
     = stdout s ++
       [ ("Количество чисел " +:+ dec (inputCount s) +:+ " " +:+ dec (count s)
          +:+ String "010"%char EmptyString)%string;
         ("Сумма чисел " +:+ dec (inputSum s) +:+ " " +:+ dec (sum s)
          +:+ String "010"%char EmptyString)%string;
         ("Разбивка по каналам ["
          +:+ Stdlib.Strings.String.concat " " (map dec (amounts s))
          +:+ "]" +:+ String "010"%char EmptyString)%string ].
Proof.
  intros Hm He Hr.
  destruct (report_and_verify_spec N s Hm He)
    as (Ho & Hc & Hs & Ha & Hi & H1 & H2 & H3 & Hx).
  split; [done|]. split; [done|]. split; [done|]. split; [done|].
  split; [done|]. split; [done|]. split.
  { intros Hs' Hc'. destruct (H3 Hs' Hc') as [-> _].
    by apply subtract_all_wrap. }
  split;
    [|by rewrite Ho, line_count_text, line_sum_text, line_lanes_text].
  intros Hret.
  destruct (Z.eq_dec (inputSum s) (sum s)) as [Hs'|Hs'];
    [|destruct (H1 Hs'); congruence].
  destruct (Z.eq_dec (inputCount s) (count s)) as [Hc'|Hc'];
    [|destruct (H2 Hs' Hc'); congruence].
  destruct (H3 Hs' Hc') as [Hic Hex]. rewrite Hex in Hret.
  destruct (Z.eqb_spec (inputCount (report_and_verify N s)) 0) as [Hz|Hz];
    [|done].
  split; [done|]. split; [done|].
  rewrite <- subtract_all_wrap, <- Hic by done. done.
Qed.

Lemma verifier_destructive_witness :
  inputCount (snd demo_drained) = 5
  /\ inputCount (report_and_verify 2 (snd demo_drained)) = 0
  /\ stdout (report_and_verify 2 (snd demo_drained))
     = [ ("Количество чисел 5 5" +:+ String "010"%char EmptyString)%string;
         ("Сумма чисел 15 15" +:+ String "010"%char EmptyString)%string;
         ("Разбивка по каналам [4 1]"
          +:+ String "010"%char EmptyString)%string ].
Proof.
  assert (int64_range (inputCount (snd demo_drained))) as Hr
    by (vm_compute; split; [discriminate | reflexivity]).
  destruct (verifier_destructive 2 (snd demo_drained) eq_refl eq_refl Hr)
    as (_ & _ & _ & _ & _ & _ & _ & Hz & Ho).
  assert (exit (report_and_verify 2 (snd demo_drained)) = Some Returned)
    as He by (vm_compute; reflexivity).
  split; [reflexivity|]. split; [exact (proj1 (Hz He))|exact Ho].
Defined.

(** The same on totals that fail the last check: the report shows the
    counters as they were at line 114, and then [log.Fatalf] ends the
    process with [inputCount] overwritten. *)
Example destructive_check_on_violation :
  stdout (report_and_verify 2 print_violation)
  = [ ("Количество чисел 7 7" +:+ String "010"%char EmptyString)%string;
      ("Сумма чисел 28 28" +:+ String "010"%char EmptyString)%string;
      ("Разбивка по каналам [3 2]"
       +:+ String "010"%char EmptyString)%string ]
  /\ exit (report_and_verify 2 print_violation) = Some (Fatal msg_lanes)
  /\ inputCount (report_and_verify 2 print_violation) = 2.
Proof. vm_compute. done. Qed.

(** In the runs of the program itself: when [main] has returned,
    [inputCount] is 0 whatever the generator counted. *)
Lemma run_ends_with_inputCount_zero N tr evs s :
  run N tr = Some (evs, s) -> exit s <> None -> inputCount s = 0.
Proof.
  intros Hr He. destruct (run_exit _ _ _ _ Hr He) as [_ Hm].
  pose proof (cons_subtract s (Conserved_run _ _ _ _ Hr)) as H.
  by rewrite Hm in H.
Qed.

(** * Further properties *)

(** ** Workers that run were started *)

Lemma Started_init N : Started N (init N).
Proof. intros i ln Hi _. simpl. lia. Qed.

Lemma Started_step N l s e s' :
  Started N s -> step N l s = Some (e, s') -> Started N s'.
Proof.
  intros HW Hs. unfold Started in *.
  destruct_state s. unfold_steps Hs. simpl in *.
  destruct ex; [done|]. destruct l.
  - case_match; simplify_eq/=. done.
  - destruct m; repeat case_match; simplify_eq/=; try done;
      repeat match goal with
        | H : (_ <? _)%nat = true |- _ => apply Nat.ltb_lt in H
        | H : (_ <? _)%nat = false |- _ => apply Nat.ltb_ge in H
        end.
    all: intros j ln Hj Hw; simpl;
      first
        [ specialize (HW j ln Hj Hw); simpl in HW; lia
        | lia
        | destruct (decide (j = i)) as [->|Hne];
          [ rewrite list_lookup_alter_eq in Hj;
            destruct (ls !! i) as [[w oc c]|] eqn:Hi; simplify_eq/=;
            specialize (HW i _ Hi eq_refl); simpl in HW; lia
          | rewrite list_lookup_alter_ne in Hj by done;
            specialize (HW j ln Hj Hw); simpl in HW; lia ] ].
  - destruct g; repeat case_match; simplify_eq/=; done.
  - destruct (ls !! i) as [[w oc c]|] eqn:Hl; [|done]. simpl in Hs.
    destruct w; repeat case_match; simplify_eq/=; try done.
    all: intros j ln Hj Hw; destruct (decide (j = i)) as [->|Hne];
      [ rewrite list_lookup_insert_eq in Hj by (by eapply lookup_lt_Some);
        by simplify_eq/=
      | rewrite list_lookup_insert_ne in Hj by done; by apply (HW j ln Hj) ].
  - destruct (ls !! i) as [[w oc c]|] eqn:Hl; [|done]. simpl in Hs.
    destruct c; repeat case_match; simplify_eq/=; try done.
    all: intros j ln Hj Hw; destruct (decide (j = i)) as [->|Hne];
      [ rewrite list_lookup_insert_eq in Hj by (by eapply lookup_lt_Some);
        simplify_eq/=; try done; by apply (HW i _ Hl)
      | rewrite list_lookup_insert_ne in Hj by done; by apply (HW j ln Hj) ].
  - destruct cl; repeat case_match; simplify_eq/=; done.
  - destruct sk; repeat case_match; simplify_eq/=; done.
Qed.

Lemma Started_run N tr evs s : run N tr = Some (evs, s) -> Started N s.
Proof.
  revert tr evs s. apply run_ind; [apply Started_init|].
  intros tr evs s l e s' _ IH Hs. eapply Started_step; eauto.
Qed.

(** ** No deadlock *)

Lemma total_nonzero_lookup {A} (f : A -> Z) (l : list A) :
  total f l <> 0 -> exists i x, l !! i = Some x /\ f x <> 0.
Proof.
  unfold total. induction l as [|a l IH]; simpl; [done|]. intros H.
  destruct (Z.eq_dec (f a) 0) as [Hz|Hz].
  - destruct IH as (i & x & Hi & Hx); [lia|]. by exists (S i), x.
  - by exists 0%nat, a.
Qed.

Lemma goroutines_collector N i : (i < N)%nat -> LCollector i ∈ goroutines N.
Proof.
  intros Hi. unfold goroutines. rewrite !elem_of_app. right. left.
  apply list_elem_of_fmap. exists i. split; [done|].
  apply list_elem_of_In, in_seq. lia.
Qed.

Lemma goroutines_worker N i : (i < N)%nat -> LWorker i ∈ goroutines N.
Proof.
  intros Hi. unfold goroutines. rewrite !elem_of_app. right. right. left.
  apply list_elem_of_fmap. exists i. split; [done|].
  apply list_elem_of_In, in_seq. lia.
Qed.

Lemma goroutines_fixed N :
  LSink ∈ goroutines N /\ LCloser ∈ goroutines N
  /\ LGen ∈ goroutines N /\ LMain ∈ goroutines N.
Proof.
  unfold goroutines. rewrite !elem_of_app, !elem_of_cons.
  repeat split; auto 10.
Qed.

Ltac by_step l :=
  exists l; split;
  [ first [ apply goroutines_fixed
          | apply goroutines_collector; eapply lookup_lt_Some; eassumption
          | apply goroutines_worker; eapply lookup_lt_Some; eassumption ]
  | unfold can_step; unfold step, step_main, step_gen, step_worker,
      step_collector, step_closer, step_sink, panic, fatal, set_lane; simpl;
    repeat match goal with H : _ !! _ = Some _ |- _ => rewrite H; clear H end;
    simpl; repeat case_match; done ].

Lemma some_goroutine_can_step N tr evs s :
  run N tr = Some (evs, s) -> exit s = None ->
  exists l, l ∈ goroutines N /\ can_step N l s = true.
Proof.
  intros Hr Hex.
  pose proof (Started_run _ _ _ _ Hr) as HW.
  pose proof (Safe_run _ _ _ _ Hr) as HS. revert HS. safe_intro.
  unfold Started in HW.
  destruct_state s. simpl in *. subst ex N.
  destruct m; try (by_step LMain).
  (* [main] waits for the sink *)
  destruct sk; try done; try (by_step LSink);
    try (simpl in Hwg1; subst wg1v; by_step LMain).
  destruct co as [|v co]; [|by_step LSink].
  destruct coc eqn:Hcoc; [by_step LSink|].
  destruct cl; try done; try (by_step LCloser).
  destruct (Z.eq_dec wgv 0) as [Hz|Hz]; [clear Hwg; subst wgv; by_step LCloser|].
  (* some collector has not called [wg.Done()] *)
  destruct (total_nonzero_lookup lane_live ls) as (i & [w oc c] & Hi & Hlive);
    [simpl in *; lia|].
  pose proof (Hlane i _ Hi) as Hok. unfold lane_ok in Hok. simpl in Hok.
  destruct Hok as (Hoc & Hwx & Hcx & Hwn & Hcn & _).
  pose proof (lookup_lt_Some _ _ _ Hi) as Hlt.
  unfold lane_live in Hlive. simpl in Hlive.
  destruct c; try done; try (by_step (LCollector i)).
  - (* the collector waits for its worker *)
    destruct oc eqn:Hoc'; [by_step (LCollector i)|].
    destruct w; try done; try (by_step (LCollector i));
      try (by_step (LWorker i)).
    + specialize (HW i _ Hi eq_refl). simpl in HW. lia.
    + (* the worker waits for the generator *)
      destruct cic eqn:Hcic; [by_step (LWorker i)|].
      destruct g; try done; try (by_step LGen); by_step (LWorker i).
  - (* the collector waits for the mutex *)
    destruct muv eqn:Hmuv; [|by_step (LCollector i)].
    destruct (total_nonzero_lookup lane_crit ls) as (j & [w' oc' c'] & Hj & Hc);
      [simpl in *; lia|].
    unfold lane_crit in Hc. simpl in Hc.
    destruct c'; try done; by_step (LCollector j).
  - (* the buffer of [chOut] is empty, so the collector can send *)
    destruct ls as [|l0 ls']; [simpl in Hlt; lia|]. by_step (LCollector i).
Qed.

(** In every state of every run in which the process has not ended, some
    goroutine can take a step. *)
Theorem deadlock_free N tr evs s :
  run N tr = Some (evs, s) -> exit s = None ->
  exists l, l ∈ goroutines N /\ can_step N l s = true.
Proof. apply some_goroutine_can_step. Qed.

(** ** Termination once the context is cancelled *)

Lemma lane_rank_nonneg ln : 0 <= lane_rank ln.
Proof. unfold lane_rank. destruct (wk ln), (col ln); simpl; lia. Qed.

Lemma lane_rank_le ln : lane_rank ln <= 20.
Proof. unfold lane_rank. destruct (wk ln), (col ln); simpl; lia. Qed.

Lemma total_le_length {A} (f : A -> Z) (b : Z) (l : list A) :
  (forall x, f x <= b) -> total f l <= b * Z.of_nat (length l).
Proof.
  intros Hb. unfold total. induction l as [|a l IH]; simpl; [lia|].
  pose proof (Hb a). lia.
Qed.

Lemma rank_nonneg N s : 0 <= rank N s.
Proof.
  unfold rank. pose proof (total_nonneg lane_rank lane_rank_nonneg (lanes s)).
  destruct (exit s), (main s), (gen s), (closer s), (sink s); simpl; lia.
Qed.

Ltac rank_arith :=
  unfold rank; simpl; rewrite ?length_app; simpl;
  try (erewrite total_insert by eassumption);
  try (erewrite total_alter by eassumption);
  unfold lane_rank; simpl; lia.

Lemma rank_step_worker N i s e s' :
  exit s = None -> step_worker i s = Some (e, s') -> rank N s' < rank N s.
Proof.
  intros Hex Hs. destruct_state s. unfold_steps Hs. simpl in *. subst.
  destruct (ls !! i) as [[w oc c]|] eqn:Hl; [|done]. simpl in Hs.
  destruct w; repeat case_match; simplify_eq/=; rank_arith.
Qed.

Lemma rank_step_collector N i s e s' :
  exit s = None -> step_collector N i s = Some (e, s') -> rank N s' < rank N s.
Proof.
  intros Hex Hs. destruct_state s. unfold_steps Hs. simpl in *. subst.
  destruct (ls !! i) as [[w oc c]|] eqn:Hl; [|done]. simpl in Hs.
  destruct c; repeat case_match; simplify_eq/=; rank_arith.
Qed.

Lemma rank_step_gen N s e s' :
  exit s = None -> ctx_done s = true -> step_gen s = Some (e, s') ->
  rank N s' < rank N s.
Proof.
  intros Hex Hcd Hs. destruct_state s. unfold_steps Hs. simpl in *. subst.
  destruct g; repeat case_match; simplify_eq/=; rank_arith.
Qed.

Lemma rank_step_closer N s e s' :
  exit s = None -> step_closer s = Some (e, s') -> rank N s' < rank N s.
Proof.
  intros Hex Hs. destruct_state s. unfold_steps Hs. simpl in *. subst.
  destruct cl; repeat case_match; simplify_eq/=; rank_arith.
Qed.

Lemma rank_step_sink N s e s' :
  exit s = None -> step_sink s = Some (e, s') -> rank N s' < rank N s.
Proof.
  intros Hex Hs. destruct_state s. unfold_steps Hs. simpl in *. subst.
  destruct sk; repeat case_match; simplify_eq/=; rank_arith.
Qed.

Lemma rank_step_main N s e s' :
  Safe N s -> exit s = None -> step_main N s = Some (e, s') ->
  rank N s' < rank N s.
Proof.
  safe_intro. intros Hex Hs. destruct_state s. unfold_steps Hs. simpl in *.
  subst ex.
  destruct m; repeat case_match; simplify_eq/=;
    repeat match goal with
      | H : (_ <? _)%nat = true |- _ => apply Nat.ltb_lt in H
      | H : (_ <? _)%nat = false |- _ => apply Nat.ltb_ge in H
      | H : _ !! _ = Some _ |- _ => apply lookup_lt_Some in H
      end.
  all: try (by destruct g; try done; rank_arith).
  all: try (by destruct cl; try done; rank_arith).
  all: try (by destruct sk; try done; rank_arith).
  all: try (rank_arith; fail).
  - (* go Worker *)
    destruct (lookup_lt_is_Some_2 ls i ltac:(lia)) as [[w oc c] Hl].
    destruct (Hlane i _ Hl) as (_ & _ & _ & Hw & _). simpl in Hw.
    assert (w = WNone) as -> by (apply Hw; lia). rank_arith.
  - (* go collector *)
    destruct (lookup_lt_is_Some_2 ls i ltac:(lia)) as [[w oc c] Hl].
    destruct (Hlane i _ Hl) as (_ & _ & _ & _ & Hc & _). simpl in Hc.
    assert (c = CNone) as -> by (apply Hc; lia). rank_arith.
Qed.

(** Once the context is cancelled every step brings the program closer
    to its end. *)
Lemma rank_step N l s e s' :
  Safe N s -> ctx_done s = true -> step N l s = Some (e, s') ->
  rank N s' < rank N s.
Proof.
  intros HS Hcd Hs. unfold step in Hs.
  destruct (exit s) eqn:Hex; [done|].
  destruct l.
  - by rewrite Hcd in Hs.
  - by eapply rank_step_main.
  - by eapply rank_step_gen.
  - by eapply rank_step_worker.
  - by eapply rank_step_collector.
  - by eapply rank_step_closer.
  - by eapply rank_step_sink.
Qed.

Lemma step_ctx_done N l s e s' :
  step N l s = Some (e, s') -> ctx_done s = true -> ctx_done s' = true.
Proof.
  intros Hs. destruct_state s. unfold_steps Hs. simpl in *.
  destruct ex; [done|]. destruct l.
  - case_match; by simplify_eq/=.
  - destruct m; repeat case_match; by simplify_eq/=.
  - destruct g; repeat case_match; by simplify_eq/=.
  - destruct (ls !! i) as [[w oc c]|]; [|done]. simpl in Hs.
    destruct w; repeat case_match; by simplify_eq/=.
  - destruct (ls !! i) as [[w oc c]|]; [|done]. simpl in Hs.
    destruct c; repeat case_match; by simplify_eq/=.
  - destruct cl; repeat case_match; by simplify_eq/=.
  - destruct sk; repeat case_match; by simplify_eq/=.
Qed.

Lemma rank_run_from N tr' evs s evs' s' :
  Safe N s -> ctx_done s = true ->
  run_from N tr' evs s = Some (evs', s') ->
  Z.of_nat (length tr') <= rank N s - rank N s'.
Proof.
  revert evs s. induction tr' as [|l tr' IH]; intros evs s HS Hcd Hr.
  - simpl in *. simplify_eq. lia.
  - simpl in Hr. destruct (step N l s) as [[e s1]|] eqn:Hs; [|done].
    pose proof (rank_step N l s e s1 HS Hcd Hs).
    pose proof (IH _ s1 (Safe_step N l s e s1 HS Hs)
                  (step_ctx_done N l s e s1 Hs Hcd) Hr).
    simpl length. lia.
Qed.

(** The buffer of [chOut] never holds more than its capacity. *)
Lemma step_chOut N l s e s' :
  step N l s = Some (e, s') -> (length (chOut s) <= N)%nat ->
  (length (chOut s') <= N)%nat.
Proof.
  intros Hs. destruct_state s. unfold_steps Hs. simpl in *.
  destruct ex; [done|]. destruct l.
  - case_match; by simplify_eq/=.
  - destruct m; repeat case_match; by simplify_eq/=.
  - destruct g; repeat case_match; by simplify_eq/=.
  - destruct (ls !! i) as [[w oc c]|]; [|done]. simpl in Hs.
    destruct w; repeat case_match; by simplify_eq/=.
  - destruct (ls !! i) as [[w oc c]|]; [|done]. simpl in Hs.
    destruct c; repeat case_match; simplify_eq/=; try done.
    rewrite length_app. simpl.
    match goal with H : (_ <? _)%nat = true |- _ => apply Nat.ltb_lt in H end.
    lia.
  - destruct cl; repeat case_match; by simplify_eq/=.
  - destruct sk; repeat case_match; simplify_eq/=; try done. lia.
Qed.

Lemma chOut_capacity N tr evs s :
  run N tr = Some (evs, s) -> (length (chOut s) <= N)%nat.
Proof.
  revert tr evs s. apply run_ind; [simpl; lia|].
  intros tr evs s l e s' _ IH Hs. by eapply step_chOut.
Qed.

Lemma rank_bound N s :
  length (lanes s) = N -> (length (chOut s) <= N)%nat ->
  rank N s <= 27 * Z.of_nat N + 34.
Proof.
  intros Hl Hc. unfold rank.
  pose proof (total_le_length lane_rank 20 (lanes s) lane_rank_le) as Ht.
  rewrite Hl in Ht.
  assert (m_rank N (main s) <= 13 + 4 * Z.of_nat N)
    by (destruct (main s); simpl; lia).
  destruct (exit s), (gen s), (closer s), (sink s); simpl; lia.
Qed.

(** Termination.  Once the context is cancelled, however the goroutines
    are scheduled from then on, the program takes at most [rank] more
    steps, which is at most [27 * N + 34]. *)
Theorem terminates_after_deadline N tr evs s tr' evs' s' :
  run N tr = Some (evs, s) -> ctx_done s = true ->
  run_from N tr' evs s = Some (evs', s') ->
  Z.of_nat (length tr') <= rank N s /\ rank N s <= 27 * Z.of_nat N + 34.
Proof.
  intros Hr Hcd Hr'. pose proof (Safe_run _ _ _ _ Hr) as HS.
  pose proof (rank_run_from N tr' evs s evs' s' HS Hcd Hr').
  pose proof (rank_nonneg N s').
  split; [lia|].
  apply rank_bound; [apply (safe_lanes_len N s HS)|by eapply chOut_capacity].
Qed.

Lemma demo_before_deadline_run :
  run 2 demo_before_deadline = Some demo_at_deadline.
Proof. vm_compute. reflexivity. Qed.

Lemma terminates_after_deadline_witness :
  ctx_done (snd demo_at_deadline) = true
  /\ Z.of_nat (length demo_after_deadline) <= rank 2 (snd demo_at_deadline)
  /\ rank 2 (snd demo_at_deadline) <= 27 * 2 + 34.
Proof.
  assert (run_from 2 demo_after_deadline (fst demo_at_deadline)
            (snd demo_at_deadline) = Some demo_ended) as Hr
    by (vm_compute; reflexivity).
  split; [reflexivity|].
  exact (terminates_after_deadline 2 demo_before_deadline
           (fst demo_at_deadline) (snd demo_at_deadline) demo_after_deadline
           (fst demo_ended) (snd demo_ended) demo_before_deadline_run
           eq_refl Hr).
Defined.

Lemma deadlock_free_witness :
  exists l, l ∈ goroutines 2 /\ can_step 2 l (snd demo_at_deadline) = true.
Proof.
  exact (deadlock_free 2 demo_before_deadline (fst demo_at_deadline)
           (snd demo_at_deadline) demo_before_deadline_run eq_refl).
Defined.

(** ** The mutex *)

Lemma total_two_le {A} (f : A -> Z) (l : list A) i j x y :
  (forall a, 0 <= f a) -> i <> j -> l !! i = Some x -> l !! j = Some y ->
  f x + f y <= total f l.
Proof.
  intros Hf. revert i j. unfold total.
  induction l as [|a l IH]; intros [|i] [|j] Hne Hi Hj; simplify_eq/=.
  - pose proof (total_lookup_le f Hf l j y Hj). unfold total in *. lia.
  - pose proof (total_lookup_le f Hf l i x Hi). unfold total in *. lia.
  - pose proof (Hf a). pose proof (IH i j ltac:(congruence) Hi Hj). lia.
Qed.

Lemma in_critical_crit ln : in_critical ln = true <-> lane_crit ln = 1.
Proof. unfold in_critical, lane_crit. destruct (col ln); split; done. Qed.

(** Mutual exclusion.  In every run at most one collector is between
    [mu.Lock()] and [mu.Unlock()], and the mutex is held exactly when
    one is. *)
Theorem mutex_exclusive N tr evs s :
  run N tr = Some (evs, s) ->
  (forall i j li lj, lanes s !! i = Some li -> lanes s !! j = Some lj ->
     in_critical li = true -> in_critical lj = true -> i = j)
  /\ (mu s = true <->
      exists i li, lanes s !! i = Some li /\ in_critical li = true).
Proof.
  intros Hr. pose proof (safe_mu N s (Safe_run _ _ _ _ Hr)) as Hmu.
  split.
  - intros i j li lj Hi Hj Hci Hcj.
    destruct (decide (i = j)) as [|Hne]; [done|exfalso].
    apply in_critical_crit in Hci, Hcj.
    pose proof (total_two_le lane_crit (lanes s) i j li lj lane_crit_nonneg
                  Hne Hi Hj).
    destruct (mu s); simpl in *; lia.
  - split.
    + intros Hm. rewrite Hm in Hmu. simpl in Hmu.
      destruct (total_nonzero_lookup lane_crit (lanes s)) as (i & li & Hi & Hc);
        [lia|].
      exists i, li. split; [done|].
      unfold lane_crit in Hc. unfold in_critical. by destruct (col li).
    + intros (i & li & Hi & Hc). apply in_critical_crit in Hc.
      pose proof (total_lookup_le lane_crit lane_crit_nonneg _ _ _ Hi).
      destruct (mu s); simpl in *; [done|lia].
Qed.

(** ** What [amounts] counts *)

Lemma Hits_init N : Hits [] (init N).
Proof.
  intros i ln h Hi Ha. simpl in *.
  apply lookup_replicate in Hi as [-> _]. apply lookup_replicate in Ha as [-> _].
  done.
Qed.

Ltac hits_goal HH i :=
  let j := fresh "j" in let ln' := fresh "ln'" in let h' := fresh "h'" in
  let Hj := fresh "Hj" in let Ha := fresh "Ha" in
  intros j ln' h' Hj Ha; rewrite forwarded_snoc; simpl;
  rewrite ?app_nil_r;
  destruct (decide (j = i)) as [->|];
  [ rewrite ?Nat.eqb_refl;
    rewrite ?list_lookup_insert_eq in Hj by (eapply lookup_lt_Some; eassumption);
    rewrite ?list_lookup_insert_eq in Ha by (eapply lookup_lt_Some; eassumption)
  | rewrite ?(proj2 (Nat.eqb_neq i j)) by done;
    rewrite ?list_lookup_insert_ne in Hj by done;
    rewrite ?list_lookup_insert_ne in Ha by done ];
  simplify_eq/=; rewrite ?app_nil_r, ?length_app; simpl.

Lemma Hits_step N l evs s e s' :
  Safe N s -> Hits evs s -> step N l s = Some (e, s') -> Hits (evs ++ [e]) s'.
Proof.
  intros HS HH Hs. pose proof (safe_lane N s HS) as Hlane. clear HS.
  unfold Hits in *.
  destruct_state s. unfold_steps Hs. simpl in *.
  destruct ex; [done|]. destruct l.
  - case_match; simplify_eq/=.
    intros j ln h Hj Ha. rewrite forwarded_snoc, app_nil_r. eauto.
  - destruct m; repeat case_match; simplify_eq/=.
    all: intros k ln h Hj Ha; rewrite forwarded_snoc, app_nil_r; eauto.
    all: destruct (decide (k = i)) as [->|Hne];
      [ rewrite list_lookup_alter_eq in Hj;
        destruct (ls !! i) as [[w oc c]|] eqn:Hi; simplify_eq/=
      | rewrite list_lookup_alter_ne in Hj by done; eauto ].
    + apply (HH i _ h Hi Ha).
    + rewrite (HH i _ h Hi Ha). unfold lane_unrecorded. simpl.
      destruct (Hlane i _ Hi) as (_ & _ & _ & _ & Hc & _). simpl in Hc.
      assert (c = CNone) as -> by (apply Hc; lia). done.
  - destruct g; repeat case_match; simplify_eq/=.
    all: intros j ln h Hj Ha; rewrite forwarded_snoc, app_nil_r; eauto.
  - destruct (ls !! i) as [[w oc c]|] eqn:Hl; [|done]. simpl in Hs.
    destruct w; repeat case_match; simplify_eq/=.
    all: try (intros j ln h Hj Ha; rewrite forwarded_snoc, app_nil_r; eauto; fail).
    all: hits_goal HH i; first [ by eapply HH | apply (HH _ _ _ Hl Ha) ].
  - destruct (ls !! i) as [[w oc c]|] eqn:Hl; [|done]. simpl in Hs.
    destruct c; repeat case_match; simplify_eq/=.
    all: try (intros j ln h Hj Ha; rewrite forwarded_snoc, app_nil_r; eauto; fail).
    all: hits_goal HH i.
    all: try (by eapply HH).
    all: try (rewrite (HH _ _ _ Hl Ha); unfold lane_unrecorded; simpl;
              f_equal; lia).
    match goal with H : am !! i = Some ?z |- _ => rewrite (HH _ _ _ Hl H) end.
    unfold lane_unrecorded. simpl. wrap_lia.
  - destruct cl; repeat case_match; simplify_eq/=.
    all: intros j ln h Hj Ha; rewrite forwarded_snoc, app_nil_r; eauto.
  - destruct sk; repeat case_match; simplify_eq/=.
    all: intros j ln h Hj Ha; rewrite forwarded_snoc, app_nil_r; eauto.
Qed.

Lemma Hits_run N tr evs s : run N tr = Some (evs, s) -> Hits evs s.
Proof.
  intros Hr. pattern tr, evs, s. revert tr evs s Hr. apply run_ind.
  - apply Hits_init.
  - intros tr evs s l e s' Hr IH Hs.
    eapply Hits_step; eauto. eapply Safe_run; eauto.
Qed.

Lemma joined_hits N tr evs s i :
  run N tr = Some (evs, s) -> joined (main s) = true -> (i < N)%nat ->
  amounts s !! i = Some (wrap64 (Z.of_nat (length (received i evs)))).
Proof.
  intros Hr Hj Hi.
  pose proof (Safe_run _ _ _ _ Hr) as HS.
  pose proof (Traced_run _ _ _ _ Hr) as HT.
  pose proof (Hits_run _ _ _ _ Hr) as HH.
  destruct (lookup_lt_is_Some_2 (lanes s) i) as [ln Hl];
    [rewrite (safe_lanes_len N s HS); lia|].
  destruct (lookup_lt_is_Some_2 (amounts s) i) as [h Ha];
    [rewrite (safe_amounts_len N s HS); lia|].
  destruct (quiet_lanes s (joined_Quiet N s HS Hj) i ln Hl) as (Hw & _ & Hc).
  destruct (tr_worker evs s HT i ln Hl) as (_ & _ & Hwt).
  rewrite Hw in Hwt. destruct Hwt as [Hrf _].
  pose proof (HH i ln h Hl Ha) as Hh.
  unfold lane_unrecorded in Hh. rewrite Hc, Z.sub_0_r, <- Hrf in Hh.
  congruence.
Qed.

(** Per-lane accounting.  In every run, once the sink is joined,
    [amounts[i]] is the number of values Worker [i] received from
    [chIn] (reduced into [int64]; the number itself in a run of fewer
    than [2^63] steps). *)
Theorem lane_hits_received N tr evs s i :
  run N tr = Some (evs, s) -> joined (main s) = true -> (i < N)%nat ->
  amounts s !! i = Some (wrap64 (Z.of_nat (length (received i evs))))
  /\ (Z.of_nat (length tr) < 2 ^ 63 ->
      amounts s !! i = Some (Z.of_nat (length (received i evs)))).
Proof.
  intros Hr Hj Hi.
  pose proof (Safe_run _ _ _ _ Hr) as HS.
  pose proof (Traced_run _ _ _ _ Hr) as HT.
  pose proof (Hits_run _ _ _ _ Hr) as HH.
  destruct (lookup_lt_is_Some_2 (lanes s) i) as [ln Hl];
    [rewrite (safe_lanes_len N s HS); lia|].
  destruct (lookup_lt_is_Some_2 (amounts s) i) as [h Ha];
    [rewrite (safe_amounts_len N s HS); lia|].
  destruct (quiet_lanes s (joined_Quiet N s HS Hj) i ln Hl) as (Hw & _ & Hc).
  destruct (tr_worker evs s HT i ln Hl) as (_ & _ & Hwt).
  rewrite Hw in Hwt. destruct Hwt as [Hrf _].
  pose proof (HH i ln h Hl Ha) as Hh.
  unfold lane_unrecorded in Hh. rewrite Hc, Z.sub_0_r, <- Hrf in Hh.
  assert (amounts s !! i = Some (wrap64 (Z.of_nat (length (received i evs)))))
    as Heq by congruence.
  split; [done|]. intros Hlen. rewrite Heq. f_equal.
  apply wrap64_id. unfold int64_range.
  assert (length (received i evs) <= length evs)%nat as Hle.
  { clear. induction evs as [|e evs IH] using rev_ind; [done|].
    rewrite received_snoc, !length_app.
    destruct e; simpl; try lia. destruct (i0 =? i)%nat; simpl; lia. }
  pose proof (run_length _ _ _ _ Hr). lia.
Qed.

(** ** Values in flight *)

Lemma step_count N l s e s' :
  step N l s = Some (e, s') ->
  count s' = count s \/ count s' = wrap64 (count s + 1).
Proof.
  intros Hs. destruct_state s. unfold_steps Hs. simpl in *.
  destruct ex; [done|]. destruct l.
  - case_match; simplify_eq/=. by left.
  - destruct m; repeat case_match; simplify_eq/=; by left.
  - destruct g; repeat case_match; simplify_eq/=; by left.
  - destruct (ls !! i) as [[w oc c]|]; [|done]. simpl in Hs.
    destruct w; repeat case_match; simplify_eq/=; by left.
  - destruct (ls !! i) as [[w oc c]|]; [|done]. simpl in Hs.
    destruct c; repeat case_match; simplify_eq/=; by left.
  - destruct cl; repeat case_match; simplify_eq/=; by left.
  - destruct sk; repeat case_match; simplify_eq/=; first [by left | by right].
Qed.

Lemma count_bound N tr evs s :
  run N tr = Some (evs, s) -> Z.of_nat (length tr) < 2 ^ 63 ->
  0 <= count s <= Z.of_nat (length tr).
Proof.
  intros Hr. pattern tr, evs, s. revert tr evs s Hr. apply run_ind.
  - intros _. simpl. lia.
  - intros tr evs s l e s' Hr IH Hs Hlen.
    rewrite length_app in *. simpl in *.
    specialize (IH ltac:(lia)).
    destruct (step_count N l s e s' Hs) as [-> | ->]; [lia|].
    rewrite wrap64_id by (unfold int64_range; lia). lia.
Qed.

Lemma lane_items_le ln : lane_items ln <= 2.
Proof. unfold lane_items. destruct (wk ln), (col ln); lia. Qed.

Lemma after_subtract_joined m : before_subtract m = false -> joined m = true.
Proof. by destruct m. Qed.

(** Sent = counted + in flight, modulo [2^64]. *)
Lemma in_flight_mod N tr evs s :
  run N tr = Some (evs, s) ->
  wrap64 (Z.of_nat (length (sent evs))
          - (count s + sink_uncounted (sink s) + Z.of_nat (length (chOut s))
             + total lane_items (lanes s))) = 0.
Proof.
  intros Hr.
  pose proof (Safe_run _ _ _ _ Hr) as HS.
  pose proof (Conserved_run _ _ _ _ Hr) as HC.
  pose proof (Traced_run _ _ _ _ Hr) as HT.
  destruct (before_subtract (main s)) eqn:Hb.
  - pose proof (cons_count s HC Hb) as Hc.
    pose proof (tr_count evs s HT Hb) as Hi.
    pose proof (tr_gen evs s HT) as Hg. unfold gen_trace_ok in Hg.
    assert (Z.of_nat (length (sent evs))
            = Z.of_nat (length (observed evs)) + gen_uncounted (gen s)) as ->.
    { destruct (gen s); simpl; destruct_and?;
        repeat match goal with H : _ = _ :> list Z |- _ => rewrite H end;
        rewrite ?length_app; simpl; lia. }
    rewrite Hi in Hc. revert Hc. generalize (gen_uncounted (gen s)).
    intros. wrap_lia.
  - pose proof (after_subtract_joined _ Hb) as Hj.
    destruct (Settled_run _ _ _ _ Hr Hj) as (Hc & _).
    destruct (Quiet_totals s (joined_Quiet N s HS Hj))
      as (_ & Hi & _ & _ & _ & _ & Hsu & Hco).
    rewrite Hi, Hsu, Hco, Hc. simpl. wrap_lia.
Qed.

(** Back-pressure.  In every run short enough for no counter to wrap:
    the number of values sent is the number the sink has counted plus
    the values in flight (one the sink may hold, the buffer of [chOut],
    at most two per lane); so the sink is never ahead of the generator
    and never more than [3 * N + 1] values behind, and the buffer never
    exceeds its capacity. *)
Theorem in_flight_accounting N tr evs s :
  run N tr = Some (evs, s) ->
  Z.of_nat (length tr) + 3 * Z.of_nat N + 1 < 2 ^ 63 ->
  Z.of_nat (length (sent evs))
  = count s + sink_uncounted (sink s) + Z.of_nat (length (chOut s))
    + total lane_items (lanes s)
  /\ 0 <= count s <= Z.of_nat (length (sent evs))
  /\ Z.of_nat (length (sent evs)) - count s <= 3 * Z.of_nat N + 1
  /\ (length (chOut s) <= N)%nat.
Proof.
  intros Hr Hlen.
  pose proof (Safe_run _ _ _ _ Hr) as HS.
  pose proof (in_flight_mod _ _ _ _ Hr) as Hm.
  pose proof (count_bound _ _ _ _ Hr ltac:(lia)) as Hc.
  pose proof (chOut_capacity _ _ _ _ Hr) as Hcap.
  pose proof (sent_length_le evs) as Hs.
  pose proof (run_length _ _ _ _ Hr) as Hl.
  pose proof (total_nonneg lane_items lane_items_nonneg (lanes s)) as H0.
  pose proof (total_le_length lane_items 2 (lanes s) lane_items_le) as H2.
  rewrite (safe_lanes_len N s HS) in H2.
  assert (0 <= sink_uncounted (sink s) <= 1) as Hsu
    by (destruct (sink s); simpl; lia).
  assert (Z.of_nat (length (sent evs))
          = count s + sink_uncounted (sink s) + Z.of_nat (length (chOut s))
            + total lane_items (lanes s)) as Heq.
  { apply wrap64_zero_eq; [unfold int64_range; lia..|done]. }
  repeat split; try lia.
Qed.

(** ** The sum of a run *)

Lemma sumZ_seq m : 2 * sumZ (map Z.of_nat (seq 1 m)) = Z.of_nat m * (Z.of_nat m + 1).
Proof.
  induction m as [|m IH]; [done|].
  rewrite seq_S, map_app, sumZ_app. simpl sumZ.
  rewrite Nat2Z.inj_succ. lia.
Qed.

(** In every run of fewer than [2^31] steps, once the sink is joined the
    sum it reports is the triangular number of the count it reports:
    [sum = count * (count + 1) / 2]. *)
Theorem sum_triangular N tr evs s :
  run N tr = Some (evs, s) -> joined (main s) = true ->
  Z.of_nat (length tr) < 2 ^ 31 ->
  count s = Z.of_nat (length (sent evs))
  /\ 2 * sum s = count s * (count s + 1).
Proof.
  intros Hr Hj Hlen.
  destruct (Settled_run _ _ _ _ Hr Hj) as (Hc & Hs & _).
  pose proof (tr_sent evs s (Traced_run _ _ _ _ Hr)) as Hsent.
  pose proof (sent_length_le evs) as Hle.
  pose proof (run_length _ _ _ _ Hr) as Hl.
  set (m := length (sent evs)) in *.
  assert (Z.of_nat m < 2 ^ 31) as Hm by lia.
  rewrite items_small in Hsent by lia.
  pose proof (sumZ_seq m) as Hsum. rewrite <- Hsent in Hsum.
  assert (count s = Z.of_nat m) as Hc'
    by (rewrite Hc; apply wrap64_id; unfold int64_range; lia).
  split; [done|].
  rewrite Hs, Hc', wrap64_id; [done|].
  unfold int64_range. nia.
Qed.

(** ** A run in which nothing is sent *)

Lemma received_of_sent_nil i evs : sent evs = [] -> received i evs = [].
Proof.
  induction evs as [|e evs IH] using rev_ind; [done|].
  rewrite sent_snoc, received_snoc. intros H.
  apply app_eq_nil in H as [H1 H2]. rewrite (IH H1).
  by destruct e.
Qed.

(** When the deadline passes before the first value is handed over, the
    program returns and its report is, character by character: the label
    of line 114 and [0 0], the label of line 115 and [0 0], the label of
    line 116 and [N] zeros separated by single spaces between brackets,
    each followed by a newline. *)
Theorem empty_run_report N tr evs s :
  run N tr = Some (evs, s) -> sent evs = [] -> exit s <> None ->
  exit s = Some Returned
  /\ stdout s = [line_count 0 0; line_sum 0 0; line_lanes (replicate N 0)]
  /\ count s = 0 /\ sum s = 0 /\ amounts s = replicate N 0
  /\ stdout s
     = [ ("Количество чисел 0 0" +:+ String "010"%char EmptyString)%string;
         ("Сумма чисел 0 0" +:+ String "010"%char EmptyString)%string;
         ("Разбивка по каналам ["
          +:+ Stdlib.Strings.String.concat " " (replicate N "0"%string)
          +:+ "]" +:+ String "010"%char EmptyString)%string ].
Proof.
  intros Hr Hnil He.
  destruct (run_exit _ _ _ _ Hr He) as [Hret Hm].
  assert (joined (main s) = true) as Hj by (by rewrite Hm).
  destruct (Settled_run _ _ _ _ Hr Hj) as (Hc & Hs & _).
  rewrite Hnil in Hc, Hs. simpl in Hc, Hs.
  change (wrap64 0) with 0 in *.
  pose proof (Reported_run _ _ _ _ Hr) as Ho. unfold Reported in Ho.
  rewrite Hm in Ho. simpl in Ho. unfold report in Ho.
  assert (amounts s = replicate N 0) as Ha.
  { apply list_eq. intros i. destruct (decide (i < N)%nat) as [Hi|Hi].
    - rewrite (joined_hits _ _ _ _ i Hr Hj Hi).
      rewrite (received_of_sent_nil i evs Hnil). simpl.
      symmetry. by apply lookup_replicate_2.
    - rewrite !lookup_ge_None_2; [done| rewrite length_replicate; lia |].
      rewrite (safe_amounts_len N s (Safe_run _ _ _ _ Hr)). lia. }
  rewrite Hc, Hs, Ha in Ho.
  split; [done|]. split; [done|]. split; [done|]. split; [done|].
  split; [done|].
  rewrite Ho, line_count_text, line_sum_text, line_lanes_text.
  replace (map dec (replicate N 0)) with (replicate N "0"%string); [done|].
  clear. induction N as [|N IH]; simpl; [done|]. by rewrite IH.
Qed.

(** ** How the process ends *)

Lemma step_returned N l s e s' :
  step N l s = Some (e, s') -> exit s' = Some Returned -> ctx_done s' = true.
Proof.
  intros Hs. destruct_state s. unfold_steps Hs. simpl in *.
  destruct ex; [done|]. destruct l.
  - case_match; by simplify_eq/=.
  - destruct m; repeat case_match; by simplify_eq/=.
  - destruct g; repeat case_match; by simplify_eq/=.
  - destruct (ls !! i) as [[w oc c]|]; [|done]. simpl in Hs.
    destruct w; repeat case_match; by simplify_eq/=.
  - destruct (ls !! i) as [[w oc c]|]; [|done]. simpl in Hs.
    destruct c; repeat case_match; by simplify_eq/=.
  - destruct cl; repeat case_match; by simplify_eq/=.
  - destruct sk; repeat case_match; by simplify_eq/=.
Qed.

(** In every run, if the process has ended then [main] has returned:
    the exit status is 0, the deferred [cancel()] has run, every other
    goroutine has finished and every channel is closed and empty. *)
Theorem exits_cleanly N tr evs s o :
  run N tr = Some (evs, s) -> exit s = Some o ->
  o = Returned /\ exit_status o = 0 /\ main s = MReturn
  /\ ctx_done s = true /\ Quiet s /\ chIn_closed s = g_done (gen s).
Proof.
  intros Hr He.
  destruct (run_exit N tr evs s Hr ltac:(congruence)) as [Hret Hm].
  pose proof (Safe_run _ _ _ _ Hr) as HS.
  assert (o = Returned) as -> by congruence.
  split; [done|]. split; [done|]. split; [done|].
  split.
  - clear Hret Hm HS. revert He. pattern tr, evs, s.
    revert tr evs s Hr. apply run_ind; [done|].
    intros tr evs s l e s' _ _ Hs He. by eapply step_returned.
  - split; [apply (joined_Quiet N s HS); by rewrite Hm|apply (safe_gen N s HS)].
Qed.

(** ** The program can always finish *)

Lemma finish_cancelled N n :
  forall tr evs s,
    run N tr = Some (evs, s) -> ctx_done s = true ->
    rank N s <= Z.of_nat n ->
    exists tr' evs' s',
      run_from N tr' evs s = Some (evs', s') /\ exit s' = Some Returned
      /\ Z.of_nat (length tr') <= rank N s.
Proof.
  induction n as [|n IH]; intros tr evs s Hr Hcd Hn.
  - pose proof (rank_nonneg N s) as H0.
    destruct (exit s) as [o|] eqn:He.
    + exists [], evs, s. simpl. split; [done|]. split; [|lia].
      apply (run_exit N tr evs s Hr). congruence.
    + unfold rank in Hn, H0. rewrite He in Hn, H0.
      pose proof (total_nonneg lane_rank lane_rank_nonneg (lanes s)).
      destruct (main s), (gen s), (closer s), (sink s); simpl in *; lia.
  - destruct (exit s) as [o|] eqn:He.
    + pose proof (rank_nonneg N s).
      exists [], evs, s. simpl. split; [done|]. split; [|lia].
      apply (run_exit N tr evs s Hr). congruence.
    + destruct (some_goroutine_can_step N tr evs s Hr He) as (l & _ & Hl).
      unfold can_step in Hl.
      destruct (step N l s) as [[e s1]|] eqn:Hs; [|done].
      pose proof (rank_step N l s e s1 (Safe_run _ _ _ _ Hr) Hcd Hs) as Hlt.
      assert (run N (tr ++ [l]) = Some (evs ++ [e], s1)) as Hr1
        by (by rewrite run_snoc, Hr, Hs).
      destruct (IH _ _ s1 Hr1 (step_ctx_done N l s e s1 Hs Hcd) ltac:(lia))
        as (tr' & evs' & s' & Hr' & Hx & Hle).
      exists (l :: tr'), evs', s'. simpl. rewrite Hs.
      split; [done|]. split; [done|]. lia.
Qed.

(** From every state of every run the program can still reach its normal
    end: some schedule of at most [27 * N + 35] further steps (the
    deadline passing first, if it has not yet) ends with [main]
    returned. *)
Theorem can_finish N tr evs s :
  run N tr = Some (evs, s) ->
  exists tr' evs' s',
    run_from N tr' evs s = Some (evs', s') /\ exit s' = Some Returned
    /\ Z.of_nat (length tr') <= 27 * Z.of_nat N + 35.
Proof.
  intros Hr.
  destruct (exit s) as [o|] eqn:He.
  { exists [], evs, s. simpl. split; [done|]. split; [|lia].
    apply (run_exit N tr evs s Hr). congruence. }
  destruct (ctx_done s) eqn:Hcd.
  - destruct (finish_cancelled N (Z.to_nat (rank N s)) tr evs s Hr Hcd)
      as (tr' & evs' & s' & Hr' & Hx & Hle);
      [pose proof (rank_nonneg N s); lia|].
    pose proof (rank_bound N s (safe_lanes_len N s (Safe_run _ _ _ _ Hr))
                  (chOut_capacity _ _ _ _ Hr)) as Hb.
    exists tr', evs', s'. split; [done|]. split; [done|]. lia.
  - assert (step N LTimeout s = Some (EvTimeout, set_ctx_done true s)) as Hs
      by (unfold step; by rewrite He, Hcd).
    assert (run N (tr ++ [LTimeout])
            = Some (evs ++ [EvTimeout], set_ctx_done true s)) as Hr1
      by (by rewrite run_snoc, Hr, Hs).
    destruct (finish_cancelled N (Z.to_nat (rank N (set_ctx_done true s)))
                _ _ _ Hr1 eq_refl)
      as (tr' & evs' & s' & Hr' & Hx & Hle);
      [pose proof (rank_nonneg N (set_ctx_done true s)); lia|].
    pose proof (rank_bound N _
                  (safe_lanes_len N _ (Safe_run _ _ _ _ Hr1))
                  (chOut_capacity _ _ _ _ Hr1)) as Hb.
    exists (LTimeout :: tr'), evs', s'. simpl. rewrite Hs.
    split; [done|]. split; [done|]. lia.
Qed.

(** ** Witnesses *)

Lemma demo_locking_run : run 2 demo_locking = Some demo_locked.
Proof. vm_compute. reflexivity. Qed.

Lemma demo_empty_run : run 2 demo_empty = Some demo_emptied.
Proof. vm_compute. reflexivity. Qed.

Lemma mutex_exclusive_witness : mu (snd demo_locked) = true.
Proof.
  destruct (mutex_exclusive 2 demo_locking (fst demo_locked) (snd demo_locked)
              demo_locking_run) as (_ & Hm).
  apply Hm. exists 0%nat, (mkLane WSleep false (CInc 1)).
  split; reflexivity.
Defined.

Lemma lane_hits_received_witness :
  amounts (snd demo_ended) !! 0%nat = Some 4
  /\ length (received 0 (fst demo_ended)) = 4%nat.
Proof.
  assert (Z.of_nat (length demo_full) < 2 ^ 63) as Hlen by reflexivity.
  destruct (lane_hits_received 2 demo_full (fst demo_ended) (snd demo_ended)
              0%nat demo_full_run eq_refl ltac:(lia)) as (_ & H).
  split; [exact (H Hlen)|reflexivity].
Defined.

Lemma in_flight_accounting_witness :
  Z.of_nat (length (sent (fst demo_at_deadline))) = 0 + 0 + 2 + 3
  /\ Z.of_nat (length (sent (fst demo_at_deadline)))
     - count (snd demo_at_deadline) <= 3 * 2 + 1.
Proof.
  assert (Z.of_nat (length demo_before_deadline) + 3 * Z.of_nat 2 + 1 < 2 ^ 63)
    as Hlen by reflexivity.
  destruct (in_flight_accounting 2 demo_before_deadline
              (fst demo_at_deadline) (snd demo_at_deadline)
              demo_before_deadline_run Hlen) as (H & _ & Hb & _).
  split; [exact H|exact Hb].
Defined.

Lemma sum_triangular_witness :
  count (snd demo_ended) = 5 /\ 2 * sum (snd demo_ended) = 5 * (5 + 1).
Proof.
  assert (Z.of_nat (length demo_full) < 2 ^ 31) as Hlen by reflexivity.
  destruct (sum_triangular 2 demo_full (fst demo_ended) (snd demo_ended)
              demo_full_run eq_refl Hlen) as (Hc & Hs).
  split; [exact Hc|exact Hs].
Defined.

Lemma empty_run_report_witness :
  stdout (snd demo_emptied)
  = [ ("Количество чисел 0 0" +:+ String "010"%char EmptyString)%string;
      ("Сумма чисел 0 0" +:+ String "010"%char EmptyString)%string;
      ("Разбивка по каналам [0 0]"
       +:+ String "010"%char EmptyString)%string ].
Proof.
  assert (exit (snd demo_emptied) <> None) as He by discriminate.
  destruct (empty_run_report 2 demo_empty (fst demo_emptied)
              (snd demo_emptied) demo_empty_run eq_refl He)
    as (_ & _ & _ & _ & _ & H).
  exact H.
Defined.

Lemma exits_cleanly_witness :
  exit_status Returned = 0 /\ ctx_done (snd demo_ended) = true.
Proof.
  destruct (exits_cleanly 2 demo_full (fst demo_ended) (snd demo_ended)
              Returned demo_full_run eq_refl) as (_ & Hs & _ & Hc & _).
  exact (conj Hs Hc).
Defined.

Lemma can_finish_witness :
  exists tr' evs' s',
    run_from 2 tr' (fst demo_locked) (snd demo_locked) = Some (evs', s')
    /\ exit s' = Some Returned
    /\ Z.of_nat (length tr') <= 27 * Z.of_nat 2 + 35.
Proof.
  exact (can_finish 2 demo_locking (fst demo_locked) (snd demo_locked)
           demo_locking_run).
Defined.
